(** * CommonCodes: the description markup (src/description.ts)

    A shallow embedding of the description parser and serializer:
    [TextSpan], [CommandSpan] and its [Type] catalog, [Paragraph], [List],
    [Description], [parseInlineElementes], [optimizeElements] and
    [parseDescription], followed by the properties of the specification
    that were checked against them.

    JavaScript strings are sequences of UTF-16 code units: a string is a
    list of code units, a code unit a number.  A [throw] is the [Throw]
    result of an error monad. *)

From Stdlib Require Import String Ascii.
From Stdlib Require Import List NArith Bool Arith Lia.
Import ListNotations.

Local Open Scope N_scope.
Local Open Scope list_scope.

(** ** Strings *)

Definition char := N.
Definition jsstring := list char.

Module Char.
Definition TAB : char := 9.
Definition LF : char := 10.
Definition SPACE : char := 32.
Definition QUOTE : char := 34.
Definition ASTERISK : char := 42.
Definition BACKSLASH : char := 92.
Definition LBRACE : char := 123.
Definition RBRACE : char := 125.
End Char.
Import Char.

(** [js "..."] is the string a JavaScript literal with the same text denotes:
    backslash-n is a line feed, backslash-t a tab, and a backslash before any
    other character stands for that character. *)
Fixpoint unescape (l : list ascii) : jsstring :=
  match l with
  | [] => []
  | c :: r =>
      if Ascii.eqb c "\"%char then
        match r with
        | [] => [N_of_ascii c]
        | e :: r' =>
            (if Ascii.eqb e "n"%char then LF
             else if Ascii.eqb e "t"%char then TAB
             else N_of_ascii e) :: unescape r'
        end
      else N_of_ascii c :: unescape r
  end.

Definition js (s : string) : jsstring := unescape (list_ascii_of_string s).

Module JsString.

(** [a === b] on strings. *)
Fixpoint eqb (a b : jsstring) : bool :=
  match a, b with
  | [], [] => true
  | x :: a', y :: b' => (x =? y) && eqb a' b'
  | _, _ => false
  end.

(** What the pattern [\s] matches, and what [trim] strips: the white space
    and line terminator code units of ECMAScript. *)
Definition isWhiteSpace (c : char) : bool :=
  existsb (N.eqb c)
    [9; 10; 11; 12; 13; 32; 160; 5760; 8232; 8233; 8239; 8287; 12288; 65279]
  || ((8192 <=? c) && (c <=? 8202)).

Fixpoint startsWith (s prefix : jsstring) {struct prefix} : bool :=
  match prefix, s with
  | [], _ => true
  | p :: prefix', c :: s' => (c =? p) && startsWith s' prefix'
  | _ :: _, [] => false
  end.

(** [s.includes(needle)] *)
Fixpoint includes (s needle : jsstring) : bool :=
  startsWith s needle ||
  match s with
  | [] => false
  | _ :: s' => includes s' needle
  end.

(** [s.substring(n)] *)
Definition substring (s : jsstring) (n : nat) : jsstring := skipn n s.

Fixpoint dropWhile (p : char -> bool) (s : jsstring) : jsstring :=
  match s with
  | [] => []
  | c :: r => if p c then dropWhile p r else s
  end.

Fixpoint takeWhile (p : char -> bool) (s : jsstring) : jsstring :=
  match s with
  | [] => []
  | c :: r => if p c then c :: takeWhile p r else []
  end.

(** [s.trim()] *)
Definition trimStart (s : jsstring) : jsstring := dropWhile isWhiteSpace s.
Definition trimEnd (s : jsstring) : jsstring := rev (dropWhile isWhiteSpace (rev s)).
Definition trim (s : jsstring) : jsstring := trimEnd (trimStart s).

(** [s.split(sep)] for a separator that is not empty.  [skip] counts the
    code units of a separator found that are still to be passed over, [cur]
    is the piece being read. *)
Fixpoint splitFrom (sep : jsstring) (skip : nat) (cur : jsstring) (s : jsstring)
  : list jsstring :=
  match s with
  | [] => [cur]
  | c :: r =>
      match skip with
      | S k => splitFrom sep k cur r
      | O =>
          if startsWith s sep
          then cur :: splitFrom sep (Nat.pred (List.length sep)) [] r
          else splitFrom sep O (cur ++ [c]) r
      end
  end.

Definition split (s sep : jsstring) : list jsstring := splitFrom sep O [] s.

(** [pieces.join("")] on pieces already turned into strings. *)
Definition join (pieces : list jsstring) : jsstring := concat pieces.

(** *** Regular expressions

    A pattern is given by its matcher: told whether the scan stands at the
    start of the input, and the input from the scan position on, it answers
    with the length of the match that starts here.  None of the patterns of
    the program matches the empty string. *)
Definition RegExp := bool -> jsstring -> option nat.

(** [/\s+/] *)
Definition re_whitespaces : RegExp :=
  fun _ s =>
    match List.length (takeWhile isWhiteSpace s) with
    | O => None
    | n => Some n
    end.

(** [/^[\\{}]$/] *)
Definition re_single_special : RegExp :=
  fun atStart s =>
    match atStart, s with
    | true, [c] =>
        if (c =? BACKSLASH) || (c =? LBRACE) || (c =? RBRACE) then Some 1%nat else None
    | _, _ => None
    end.

(** [/\n{3,}/] *)
Definition re_three_line_breaks : RegExp :=
  fun _ s =>
    let n := List.length (takeWhile (N.eqb LF) s) in
    if (3 <=? n)%nat then Some n else None.

(** [/\n/] *)
Definition re_line_break : RegExp :=
  fun _ s =>
    match s with
    | c :: _ => if c =? LF then Some 1%nat else None
    | [] => None
    end.

(** [s.replace(re, f)]: the input is scanned from the left; where the
    pattern matches, [f] of the matched text is emitted and the scan goes on
    behind the match (with the [g] flag) or the rest is copied (without);
    elsewhere one code unit is copied. *)
Fixpoint replaceFrom (fuel : nat) (re : RegExp) (g : bool)
    (f : jsstring -> jsstring) (atStart : bool) (s : jsstring) : jsstring :=
  match fuel, s with
  | S fuel', c :: r =>
      match re atStart s with
      | Some (S n) =>
          f (firstn (S n) s) ++
          (if g then replaceFrom fuel' re g f false (skipn n r) else skipn n r)
      | _ => c :: replaceFrom fuel' re g f false r
      end
  | _, _ => s
  end.

Definition replace (s : jsstring) (re : RegExp) (g : bool)
    (f : jsstring -> jsstring) : jsstring :=
  replaceFrom (List.length s) re g f true s.

End JsString.

(** ** Errors *)

(** What a [throw] carries: an [Exception] with its message, or the
    [TypeError] of the runtime (reading a property of [undefined]). *)
Inductive Thrown : Type :=
| Exception (message : jsstring)
| TypeError.

Inductive result (A : Type) : Type :=
| Ok (a : A)
| Throw (e : Thrown).
Arguments Ok {A} a.
Arguments Throw {A} e.

Definition bind {A B : Type} (m : result A) (k : A -> result B) : result B :=
  match m with
  | Ok a => k a
  | Throw e => Throw e
  end.

Declare Scope result_scope.
Delimit Scope result_scope with result.
Notation "x <- m ;; k" := (bind m (fun x => k))
  (at level 61, m at next level, right associativity) : result_scope.
Local Open Scope result_scope.

(** [xs.forEach(f)] for a callback that may throw, with the state it updates
    passed along. *)
Fixpoint forEach {A S : Type} (f : S -> A -> result S) (xs : list A) (st : S)
  : result S :=
  match xs with
  | [] => Ok st
  | x :: xs' => st' <- f st x ;; forEach f xs' st'
  end.

(** ** Inline elements *)

Module TextSpan.

Record t : Type := Build { text : jsstring }.

Definition MULTIPLE_LINE_BREAKS : jsstring :=
  js "Text may not contain multiple line breaks in sequence".

(** [new TextSpan(text)] *)
Definition new (text : jsstring) : result t :=
  if JsString.includes text [LF; LF] then
    Throw (Exception MULTIPLE_LINE_BREAKS)
  else
    (* compress whitespace *)
    Ok (Build (JsString.replace text JsString.re_whitespaces true
                 (fun substring => firstn 1 substring))).

Definition toString (self : t) : jsstring := text self.

End TextSpan.

Module CommandSpan.

Inductive Type_ : Type :=
| EMPHASIS
| STRONG_EMPHASIS
| PROPER_NAME
| CODE
| MESSAGE
| MESSAGE_PLACEHOLDER
| CURLY_BRACE_OPEN
| CURLY_BRACE_CLOSED.

Definition ordinal (ty : Type_) : N :=
  match ty with
  | EMPHASIS => 0
  | STRONG_EMPHASIS => 1
  | PROPER_NAME => 2
  | CODE => 3
  | MESSAGE => 4
  | MESSAGE_PLACEHOLDER => 5
  | CURLY_BRACE_OPEN => 6
  | CURLY_BRACE_CLOSED => 7
  end.

Definition name (ty : Type_) : jsstring :=
  match ty with
  | EMPHASIS => js "EMPHASIS"
  | STRONG_EMPHASIS => js "STRONG_EMPHASIS"
  | PROPER_NAME => js "PROPER_NAME"
  | CODE => js "CODE"
  | MESSAGE => js "MESSAGE"
  | MESSAGE_PLACEHOLDER => js "MESSAGE_PLACEHOLDER"
  | CURLY_BRACE_OPEN => js "CURLY_BRACE_OPEN"
  | CURLY_BRACE_CLOSED => js "CURLY_BRACE_CLOSED"
  end.

Definition getCommands (ty : Type_) : list jsstring :=
  match ty with
  | EMPHASIS => [js "e"]
  | STRONG_EMPHASIS => [js "s"]
  | PROPER_NAME => [js "p"]
  | CODE => [js "c"]
  | MESSAGE => [js "m"]
  | MESSAGE_PLACEHOLDER => [js "mp"]
  | CURLY_BRACE_OPEN => [js "cb"; js "cbo"]
  | CURLY_BRACE_CLOSED => [js "cbc"]
  end.

(** The catalog, in the order the static fields are initialised. *)
Definition _values : list Type_ :=
  [EMPHASIS; STRONG_EMPHASIS; PROPER_NAME; CODE; MESSAGE; MESSAGE_PLACEHOLDER;
   CURLY_BRACE_OPEN; CURLY_BRACE_CLOSED].

Definition from (n : jsstring) : option Type_ :=
  find (fun value => JsString.eqb (name value) n) _values.

Definition fromCommand (command : jsstring) : option Type_ :=
  find (fun value => existsb (JsString.eqb command) (getCommands value)) _values.

Definition values : list Type_ := _values.

Record t : Type := Build { type : Type_; textSpan : TextSpan.t }.

(** [this.type.getCommands()[0]]; every entry of the catalog has an alias. *)
Definition canonical (ty : Type_) : jsstring := hd [] (getCommands ty).

Definition toString (self : t) : jsstring :=
  let str := [LBRACE] ++ canonical (type self) in
  let escapedText :=
    JsString.replace (TextSpan.text (textSpan self)) JsString.re_single_special true
      (fun substring => BACKSLASH :: substring) in
  let str :=
    if negb (JsString.eqb escapedText []) then str ++ [SPACE] ++ escapedText else str in
  str ++ [RBRACE].

End CommandSpan.

Inductive DescriptionInlineElement : Type :=
| Text (span : TextSpan.t)
| Command (span : CommandSpan.t).

Definition DescriptionInlineElement_toString (e : DescriptionInlineElement) : jsstring :=
  match e with
  | Text span => TextSpan.toString span
  | Command span => CommandSpan.toString span
  end.

(** ** Block elements *)

Inductive DescriptionBlockElement : Type :=
| Paragraph (elements : list DescriptionInlineElement)
| List (items : list (list DescriptionInlineElement)).

(** [elements.join("")] on an array of inline elements. *)
Definition joinElements (elements : list DescriptionInlineElement) : jsstring :=
  JsString.join (map DescriptionInlineElement_toString elements).

Definition Paragraph_toString (elements : list DescriptionInlineElement) : jsstring :=
  [LF] ++ joinElements elements ++ [LF].

(** [this.items[i].join("").replace(/\n/, "\n  ")] *)
Definition itemToString (item : list DescriptionInlineElement) : jsstring :=
  JsString.replace (joinElements item) JsString.re_line_break false
    (fun _ => js "\n  ").

Definition List_toString (items : list (list DescriptionInlineElement)) : jsstring :=
  let str :=
    match items with
    | item0 :: _ => js "* " ++ itemToString item0
    | [] => []
    end in
  let str :=
    fold_left (fun str item => str ++ js "\n* " ++ itemToString item) (tl items) str in
  [LF] ++ str ++ [LF].

Definition DescriptionBlockElement_toString (b : DescriptionBlockElement) : jsstring :=
  match b with
  | Paragraph elements => Paragraph_toString elements
  | List items => List_toString items
  end.

Module Description.

Record t : Type := Build { elements : list DescriptionBlockElement }.

Definition toString (self : t) : jsstring :=
  JsString.trim (JsString.join (map DescriptionBlockElement_toString (elements self))).

End Description.

(** ** The inline parser *)

(** The variables the scan of a line updates. *)
Record ScanState : Type := {
  elements : list DescriptionInlineElement;
  commandType : option CommandSpan.Type_;
  text : jsstring
}.

Definition BRACES_WITHOUT_COMMAND : jsstring := js "Braces without command".
Definition UNCLOSED_COMMAND : jsstring := js "Unclosed command".
Definition UNKNOWN_COMMAND (commandStr : jsstring) : jsstring :=
  js "Unknown command " ++ [QUOTE] ++ commandStr ++ [QUOTE].

Definition pushTextSpan (st : ScanState) : result ScanState :=
  if negb (JsString.eqb (text st) []) then
    span <- TextSpan.new (text st) ;;
    Ok {| elements := elements st ++ [Text span];
          commandType := commandType st;
          text := [] |}
  else Ok st.

(** [text += c] *)
Definition appendText (st : ScanState) (c : char) : ScanState :=
  {| elements := elements st; commandType := commandType st; text := text st ++ [c] |}.

(** A code unit the command token goes on with: neither white space nor the
    closing brace. *)
Definition isCommandChar (c : char) : bool :=
  negb (JsString.isWhiteSpace c) && negb (c =? RBRACE).

(** One round of the [for] loop of [parseInlineElementes]: [c] is [str[i]],
    [next] the line behind it, and [continue] the rounds that follow, given
    the line from the new index [i] on. *)
Definition scanRound (continue : ScanState -> jsstring -> result ScanState)
    (st : ScanState) (c : char) (next : jsstring) : result ScanState :=
  match commandType st with
  | None =>
      if c =? LBRACE then
        st <- pushTextSpan st ;;
        let commandStr := JsString.takeWhile isCommandChar next in
        let rest := JsString.dropWhile isCommandChar next in
        if JsString.eqb commandStr [] then Throw (Exception BRACES_WITHOUT_COMMAND)
        else
          (* skip whitespace *)
          let rest := JsString.dropWhile JsString.isWhiteSpace rest in
          match CommandSpan.fromCommand commandStr with
          | None => Throw (Exception (UNKNOWN_COMMAND commandStr))
          | Some ty =>
              continue {| elements := elements st;
                          commandType := Some ty;
                          text := text st |} rest
          end
      else continue (appendText st c) next
  | Some ty =>
      if c =? RBRACE then
        span <- TextSpan.new (text st) ;;
        continue {| elements := elements st ++ [Command (CommandSpan.Build ty span)];
                    commandType := None;
                    text := [] |} next
      else
        match next with
        | escChar :: next' =>
            if (c =? BACKSLASH) &&
               ((escChar =? BACKSLASH) || (escChar =? LBRACE) || (escChar =? RBRACE))
            then continue (appendText st escChar) next'
            else continue (appendText st c) next
        | [] => continue (appendText st c) next
        end
  end.

(** The loop; [rest] is the line from index [i] on.  Every round moves [i]
    forward, so one unit of [fuel] for each code unit of the line is enough. *)
Fixpoint scan (fuel : nat) (st : ScanState) (rest : jsstring) : result ScanState :=
  match fuel, rest with
  | S fuel', c :: next => scanRound (scan fuel') st c next
  | _, _ => Ok st
  end.

Definition parseInlineElementes (str : jsstring) : result (list DescriptionInlineElement) :=
  st <- scan (List.length str) {| elements := []; commandType := None; text := [] |} str ;;
  match commandType st with
  | Some _ => Throw (Exception UNCLOSED_COMMAND)
  | None => st <- pushTextSpan st ;; Ok (elements st)
  end.

(** ** The span optimizer *)

(** [xs[xs.length - 1]], [undefined] on the empty array. *)
Definition lastOf {A : Type} (xs : list A) : option A :=
  nth_error xs (List.length xs - 1).

(** The callback of [elements.forEach] in [optimizeElements]. *)
Definition optimizeStep (optimizedElements : list DescriptionInlineElement)
    (element : DescriptionInlineElement) : result (list DescriptionInlineElement) :=
  match lastOf optimizedElements with
  | None => Ok (optimizedElements ++ [element])
  | Some lastOptimizedElement =>
      match element with
      | Text span =>
          if negb (JsString.eqb (TextSpan.text span) []) then
            match lastOptimizedElement with
            | Text lastSpan =>
                merged <- TextSpan.new (TextSpan.text lastSpan ++ TextSpan.text span) ;;
                Ok (removelast optimizedElements ++ [Text merged])
            | Command _ => Ok (optimizedElements ++ [element])
            end
          else Ok optimizedElements
      | Command _ => Ok (optimizedElements ++ [element])
      end
  end.

Definition optimizeElements (elements : list DescriptionInlineElement)
  : result (list DescriptionInlineElement) :=
  forEach optimizeStep elements [].

(** ** The block parser *)

(** [blocks] and the two accumulators of the block being read. *)
Record BlockState : Type := {
  blocks : list DescriptionBlockElement;
  paragraphElements : option (list DescriptionInlineElement);
  listItems : option (list (list DescriptionInlineElement))
}.

(** [items.map(optimizeElements)] *)
Fixpoint mapOptimize (items : list (list DescriptionInlineElement))
  : result (list (list DescriptionInlineElement)) :=
  match items with
  | [] => Ok []
  | item :: items' =>
      item <- optimizeElements item ;;
      items' <- mapOptimize items' ;;
      Ok (item :: items')
  end.

Definition pushParagraphElements (st : BlockState) : result BlockState :=
  match paragraphElements st with
  | Some elements =>
      elements <- optimizeElements elements ;;
      Ok {| blocks := blocks st ++ [Paragraph elements];
            paragraphElements := None;
            listItems := listItems st |}
  | None => Ok st
  end.

Definition pushListItems (st : BlockState) : result BlockState :=
  match listItems st with
  | Some items =>
      items <- mapOptimize items ;;
      Ok {| blocks := blocks st ++ [List items];
            paragraphElements := paragraphElements st;
            listItems := None |}
  | None => Ok st
  end.

(** [items[items.length - 1].push(...xs)]; reading [push] of [undefined]
    throws, which an open list never meets: it holds an item from the moment
    it is opened. *)
Definition pushToLastItem (items : list (list DescriptionInlineElement))
    (xs : list DescriptionInlineElement) : result (list (list DescriptionInlineElement)) :=
  match lastOf items with
  | Some item => Ok (removelast items ++ [item ++ xs])
  | None => Throw TypeError
  end.

(** The last branch of the line classification: a paragraph line. *)
Definition paragraphLine (st : BlockState) (line : jsstring) : result BlockState :=
  st <- pushListItems st ;;
  let elements := match paragraphElements st with Some elements => elements | None => [] end in
  elements <-
    (if (0 <? List.length elements)%nat && negb (JsString.startsWith line (js " "))
     then marker <- TextSpan.new (js "\n") ;; Ok (elements ++ [Text marker])
     else Ok elements) ;;
  parsed <- parseInlineElementes line ;;
  Ok {| blocks := blocks st;
        paragraphElements := Some (elements ++ parsed);
        listItems := listItems st |}.

(** The callback of [block.split("\n").forEach]. *)
Definition parseLine (st : BlockState) (line : jsstring) : result BlockState :=
  if JsString.startsWith line (js "* ") then
    st <- pushParagraphElements st ;;
    let items := match listItems st with Some items => items | None => [] end in
    let items := items ++ [[]] in
    parsed <- parseInlineElementes (JsString.substring line 2) ;;
    items <- pushToLastItem items parsed ;;
    Ok {| blocks := blocks st;
          paragraphElements := paragraphElements st;
          listItems := Some items |}
  else
    match listItems st with
    | Some items =>
        if JsString.startsWith line (js "  ") then
          match lastOf items with
          | None => Throw TypeError
          | Some item =>
              items <-
                (if (0 <? List.length item)%nat && negb (JsString.startsWith line (js "   "))
                 then marker <- TextSpan.new (js "\n") ;; pushToLastItem items [Text marker]
                 else Ok items) ;;
              parsed <- parseInlineElementes (JsString.substring line 2) ;;
              items <- pushToLastItem items parsed ;;
              Ok {| blocks := blocks st;
                    paragraphElements := paragraphElements st;
                    listItems := Some items |}
          end
        else paragraphLine st line
    | None => paragraphLine st line
    end.

(** The callback of [str.split("\n\n").forEach]: the accumulators start
    closed, and whichever is open after the last line is flushed. *)
Definition parseBlock (blocks0 : list DescriptionBlockElement) (block : jsstring)
  : result (list DescriptionBlockElement) :=
  st <- forEach parseLine (JsString.split block (js "\n"))
          {| blocks := blocks0; paragraphElements := None; listItems := None |} ;;
  st <- pushParagraphElements st ;;
  st <- pushListItems st ;;
  Ok (blocks st).

Definition parseDescription (str : jsstring) : result Description.t :=
  let str :=
    JsString.replace (JsString.trim str) JsString.re_three_line_breaks true
      (fun _ => js "\n\n") in
  blocks <- forEach parseBlock (JsString.split str (js "\n\n")) [] ;;
  Ok (Description.Build blocks).

(** ** The specification's wording, for comparison *)

(** Whitespace collapsing as the specification words it: of every maximal run
    of whitespace code units only the first is kept.  [afterWhiteSpace] says
    that the code unit before the current one was white space. *)
Fixpoint keepRunHeads (afterWhiteSpace : bool) (s : jsstring) : jsstring :=
  match s with
  | [] => []
  | c :: r =>
      if JsString.isWhiteSpace c
      then (if afterWhiteSpace then keepRunHeads true r else c :: keepRunHeads true r)
      else c :: keepRunHeads false r
  end.

(** The three code units the serializer escapes. *)
Definition isSpecial (c : char) : bool :=
  (c =? BACKSLASH) || (c =? LBRACE) || (c =? RBRACE).

(** The optimizer as the specification words it: the sequence is cut into
    its maximal runs of adjacent text spans and the command spans between
    them; a command span stays as it is, and a run gives one text span, the
    merge of its spans that are not empty, or nothing when all are empty.
    The spans of a run are merged from the left, each merge building a new
    [TextSpan] from the text merged so far followed by the next text. *)
Inductive Segment : Type :=
| TextRun (spans : list TextSpan.t)
| CommandSegment (span : CommandSpan.t).

Fixpoint segments (elements : list DescriptionInlineElement) : list Segment :=
  match elements with
  | [] => []
  | Command span :: elements' => CommandSegment span :: segments elements'
  | Text span :: elements' =>
      match segments elements' with
      | TextRun spans :: segs => TextRun (span :: spans) :: segs
      | segs => TextRun [span] :: segs
      end
  end.

Definition isEmptySpan (span : TextSpan.t) : bool :=
  JsString.eqb (TextSpan.text span) [].

Definition mergeSpans (merged span : TextSpan.t) : result TextSpan.t :=
  TextSpan.new (TextSpan.text merged ++ TextSpan.text span).

Definition mergeRun (spans : list TextSpan.t) : result (list DescriptionInlineElement) :=
  match filter (fun span => negb (isEmptySpan span)) spans with
  | [] => Ok []
  | first :: others =>
      merged <- forEach mergeSpans others first ;;
      Ok [Text merged]
  end.

Definition mergeSegment (seg : Segment) : result (list DescriptionInlineElement) :=
  match seg with
  | TextRun spans => mergeRun spans
  | CommandSegment span => Ok [Command span]
  end.

Fixpoint mergeSegments (segs : list Segment) : result (list DescriptionInlineElement) :=
  match segs with
  | [] => Ok []
  | seg :: segs' =>
      out <- mergeSegment seg ;;
      outs <- mergeSegments segs' ;;
      Ok (out ++ outs)
  end.

Definition mergedRuns (elements : list DescriptionInlineElement)
  : result (list DescriptionInlineElement) :=
  mergeSegments (segments elements).

(** The sequence begins with a text span that is empty. *)
Definition beginsWithEmptyText (elements : list DescriptionInlineElement) : bool :=
  match elements with
  | Text span :: _ => isEmptySpan span
  | _ => false
  end.

(** ** The exception class (src/Exception.ts) *)

Module CustomException.

(** An exception object: its [name], its [message] and its [_cause]. *)
#[warnings="-register-all"]
Inductive t : Type :=
| Build (name : jsstring) (message : jsstring) (_cause : option t).

(** [new Exception(message, cause)], both arguments [null] by default; the
    name is that of the class constructed. *)
Definition new (message : option jsstring) (cause : option t) : t :=
  Build (js "Exception")
        (match message with Some m => m | None => [] end)
        cause.

Definition message (self : t) : jsstring :=
  match self with Build _ m _ => m end.

(** [get cause()] *)
Definition cause (self : t) : option t :=
  match self with Build _ _ c => c end.

(** [initCause(cause)], giving the object after the call. *)
Definition initCause (self : t) (cause : t) : t :=
  match self with
  | Build n m None => Build n m (Some cause)
  | Build _ _ (Some _) => self
  end.

End CustomException.

(** ** Notions the further properties are stated with *)

(** [Type.toString()] *)
Definition Type_toString (ty : CommandSpan.Type_) : jsstring := CommandSpan.name ty.

(** No two white space code units stand side by side in [s];
    [afterWhiteSpace] says that the code unit before [s] was white space. *)
Fixpoint noAdjacentWhiteSpace (afterWhiteSpace : bool) (s : jsstring) : bool :=
  match s with
  | [] => true
  | c :: r =>
      if JsString.isWhiteSpace c
      then negb afterWhiteSpace && noAdjacentWhiteSpace true r
      else noAdjacentWhiteSpace false r
  end.

(** The command spans of a sequence, in their order. *)
Fixpoint commandsOf (elements : list DescriptionInlineElement) : list CommandSpan.t :=
  match elements with
  | [] => []
  | Text _ :: elements' => commandsOf elements'
  | Command span :: elements' => span :: commandsOf elements'
  end.

(** A sequence read from its end, as the optimizer leaves it: a text span
    has no text span before it, and is not empty unless it is the first
    element. *)
Fixpoint mergedRev (reversed : list DescriptionInlineElement) : bool :=
  match reversed with
  | [] => true
  | Text span :: before =>
      match before with
      | [] => true
      | Text _ :: _ => false
      | Command _ :: _ => negb (isEmptySpan span)
      end && mergedRev before
  | Command _ :: before => mergedRev before
  end.

Definition merged (elements : list DescriptionInlineElement) : bool :=
  mergedRev (rev elements).

(** The last element of the sequence is a text span. *)
Definition endsWithText (elements : list DescriptionInlineElement) : bool :=
  match rev elements with
  | Text _ :: _ => true
  | _ => false
  end.

(** The four messages the parser throws. *)
Definition isParseError (e : Thrown) : Prop :=
  e = Exception TextSpan.MULTIPLE_LINE_BREAKS
  \/ e = Exception BRACES_WITHOUT_COMMAND
  \/ e = Exception UNCLOSED_COMMAND
  \/ exists commandStr, e = Exception (UNKNOWN_COMMAND commandStr).

(** An open list holds an item. *)
Definition listHoldsItem (st : BlockState) : Prop :=
  forall items, listItems st = Some items -> exists before item, items = before ++ [item].

(** The state with [blocks0] in front of its blocks. *)
Definition prependBlocks (blocks0 : list DescriptionBlockElement) (st : BlockState)
  : BlockState :=
  {| blocks := blocks0 ++ blocks st;
     paragraphElements := paragraphElements st;
     listItems := listItems st |}.

(** * Properties *)

(** ** Strings *)

Lemma eqb_eq (a b : jsstring) : JsString.eqb a b = true <-> a = b.
Proof.
  revert b; induction a as [|x a IH]; intros [|y b]; simpl; split; intros H;
    try reflexivity; try discriminate.
  - apply andb_true_iff in H as [Hx Ha]. apply N.eqb_eq in Hx.
    apply IH in Ha. now subst.
  - injection H as -> ->. rewrite N.eqb_refl. now apply IH.
Qed.

Lemma startsWith_app (s prefix : jsstring) :
  JsString.startsWith s prefix = true <-> exists rest, s = prefix ++ rest.
Proof.
  revert s; induction prefix as [|p prefix IH]; intros s; simpl.
  - split; [intros _; now exists s | reflexivity].
  - destruct s as [|c s]; [split; [discriminate | intros [rest H]; discriminate]|].
    rewrite andb_true_iff, N.eqb_eq, IH. split.
    + intros [-> [rest ->]]. now exists rest.
    + intros [rest H]. injection H as -> ->. split; [reflexivity | now exists rest].
Qed.

Lemma includes_app (s needle : jsstring) :
  JsString.includes s needle = true <-> exists before rest, s = before ++ needle ++ rest.
Proof.
  induction s as [|c s IH].
  - simpl. rewrite orb_false_r, startsWith_app. split.
    + intros [rest H]. now exists [], rest.
    + intros [[|b before] [rest H]]; [now exists rest | discriminate].
  - cbn [JsString.includes]. rewrite orb_true_iff, startsWith_app, IH. split.
    + intros [[rest H] | [before [rest H]]].
      * now exists [], rest.
      * exists (c :: before), rest. now rewrite H.
    + intros [[|b before] [rest H]].
      * left. now exists rest.
      * right. injection H as -> ->. now exists before, rest.
Qed.

Lemma skipn_takeWhile (p : char -> bool) (s : jsstring) :
  skipn (List.length (JsString.takeWhile p s)) s = JsString.dropWhile p s.
Proof.
  induction s as [|c s IH]; simpl; [reflexivity|].
  destruct (p c); simpl; [exact IH | reflexivity].
Qed.

Lemma length_dropWhile (p : char -> bool) (s : jsstring) :
  (List.length (JsString.dropWhile p s) <= List.length s)%nat.
Proof.
  induction s as [|c s IH]; simpl; [lia|]. destruct (p c); simpl; lia.
Qed.

(** ** Replacement *)

(** The fuel [replace] starts with is enough: more of it changes nothing. *)
Lemma replaceFrom_fuel re g f : forall fuel fuel' atStart (s : jsstring),
  (List.length s <= fuel)%nat -> (List.length s <= fuel')%nat ->
  JsString.replaceFrom fuel re g f atStart s = JsString.replaceFrom fuel' re g f atStart s.
Proof.
  induction fuel as [|fuel IH]; intros fuel' atStart s H H'.
  - destruct s; [now destruct fuel' | simpl in H; lia].
  - destruct s as [|c r]; [now destruct fuel'|].
    destruct fuel' as [|fuel']; simpl in H, H'; [lia|].
    cbn [JsString.replaceFrom].
    destruct (re atStart (c :: r)) as [[|n]|].
    + f_equal. apply IH; lia.
    + destruct g; [|reflexivity]. f_equal.
      pose proof (length_skipn n r). apply IH; lia.
    + f_equal. apply IH; lia.
Qed.

(** A pattern anchored at the start finds nothing once the scan has left it. *)
Lemma replaceFrom_single_special_later fuel f s :
  JsString.replaceFrom fuel JsString.re_single_special true f false s = s.
Proof.
  revert s; induction fuel as [|fuel IH]; intros [|c r]; simpl; try reflexivity.
  now rewrite IH.
Qed.

Lemma keepRunHeads_dropWhile (s : jsstring) :
  keepRunHeads true s = keepRunHeads false (JsString.dropWhile JsString.isWhiteSpace s).
Proof.
  induction s as [|c s IH]; simpl; [reflexivity|].
  destruct (JsString.isWhiteSpace c) eqn:E; [exact IH|].
  simpl. now rewrite E.
Qed.

Lemma replaceFrom_whitespaces fuel atStart (s : jsstring) :
  (List.length s <= fuel)%nat ->
  JsString.replaceFrom fuel JsString.re_whitespaces true (fun substring => firstn 1 substring)
    atStart s = keepRunHeads false s.
Proof.
  revert atStart s; induction fuel as [|fuel IH]; intros atStart [|c r] Hlen; simpl in *;
    try reflexivity; try lia.
  unfold JsString.re_whitespaces. simpl.
  destruct (JsString.isWhiteSpace c) eqn:E; simpl.
  - rewrite skipn_takeWhile, keepRunHeads_dropWhile. f_equal.
    apply IH. pose proof (length_dropWhile JsString.isWhiteSpace r). lia.
  - f_equal. apply IH. lia.
Qed.

Lemma replace_whitespaces (s : jsstring) :
  JsString.replace s JsString.re_whitespaces true (fun substring => firstn 1 substring)
  = keepRunHeads false s.
Proof. apply replaceFrom_whitespaces. lia. Qed.

(** ** Text spans *)

Lemma TextSpan_new_cases (s : jsstring) :
  TextSpan.new s =
    if JsString.includes s [LF; LF]
    then Throw (Exception TextSpan.MULTIPLE_LINE_BREAKS)
    else Ok (TextSpan.Build (keepRunHeads false s)).
Proof.
  unfold TextSpan.new. destruct (JsString.includes s [LF; LF]); [reflexivity|].
  now rewrite replace_whitespaces.
Qed.

(** C4, as amended: a string without two consecutive line breaks is accepted
    by the [TextSpan] constructor, and the stored text is the input with every
    maximal run of whitespace replaced by the first code unit of the run; so
    ["a   b\tc"] is stored as ["a b\tc"] (the tab is a run of its own and
    stays) and ["a\t\tb"] as ["a\tb"]. *)
Theorem TextSpan_new_collapses (s : jsstring) :
  JsString.includes s [LF; LF] = false ->
  TextSpan.new s = Ok (TextSpan.Build (keepRunHeads false s))
  /\ TextSpan.new (js "a   b\tc") = Ok (TextSpan.Build (js "a b\tc"))
  /\ TextSpan.new (js "a\t\tb") = Ok (TextSpan.Build (js "a\tb")).
Proof.
  intros H. rewrite TextSpan_new_cases, H. repeat split; reflexivity.
Qed.

Lemma TextSpan_new_collapses_witness :
  JsString.includes (js "one  two \t three") [LF; LF] = false
  /\ TextSpan.new (js "one  two \t three") = Ok (TextSpan.Build (js "one two three"))
  /\ TextSpan.new (js "a   b\tc") = Ok (TextSpan.Build (js "a b\tc"))
  /\ TextSpan.new (js "a\t\tb") = Ok (TextSpan.Build (js "a\tb")).
Proof.
  split; [reflexivity|].
  exact (TextSpan_new_collapses (js "one  two \t three") eq_refl).
Defined.

(** C4, as stated, fails on its first example: the text stored for
    ["a   b\tc"] keeps the tab between [b] and [c]; it is not ["a b c"]. *)
Lemma TextSpan_new_keeps_tab :
  TextSpan.new (js "a   b\tc") = Ok (TextSpan.Build (js "a b\tc"))
  /\ TextSpan.new (js "a   b\tc") <> Ok (TextSpan.Build (js "a b c")).
Proof. split; [reflexivity | discriminate]. Qed.

(** C5: the [TextSpan] constructor throws its "multiple line breaks"
    exception exactly when the input holds two line breaks in a row, whoever
    calls it; ["line1\n\nline2"] is refused. *)
Theorem TextSpan_new_throws_iff (s : jsstring) :
  (TextSpan.new s = Throw (Exception TextSpan.MULTIPLE_LINE_BREAKS)
   <-> exists before rest, s = before ++ [LF; LF] ++ rest)
  /\ ((exists span, TextSpan.new s = Ok span)
      <-> ~ exists before rest, s = before ++ [LF; LF] ++ rest)
  /\ TextSpan.new (js "line1\n\nline2") = Throw (Exception TextSpan.MULTIPLE_LINE_BREAKS)
  /\ TextSpan.MULTIPLE_LINE_BREAKS = js "Text may not contain multiple line breaks in sequence".
Proof.
  rewrite <- includes_app, TextSpan_new_cases.
  destruct (JsString.includes s [LF; LF]); repeat split;
    try reflexivity; try discriminate; try congruence.
  - intros [span H]. discriminate.
  - intros _. now eexists.
Qed.

(** ** Command spans *)

(** C1: a command span is written as the opening brace, the first alias of
    its type, then, unless the content is empty, a space and the content, and
    the closing brace; the content gets a backslash in front only when it is
    a single backslash or brace.  So CODE with content ["\\"] gives
    ["{c \\\\}"] and with content ["a\\b"] gives ["{c a\\b}"]. *)
Theorem CommandSpan_toString_spec (ty : CommandSpan.Type_) (content : jsstring) :
  (exists alias others,
     CommandSpan.getCommands ty = alias :: others /\
     CommandSpan.toString (CommandSpan.Build ty (TextSpan.Build content)) =
       [LBRACE] ++ alias ++
       match content with
       | [] => []
       | [c] => if isSpecial c then [SPACE; BACKSLASH; c] else [SPACE; c]
       | _ => [SPACE] ++ content
       end ++ [RBRACE])
  /\ CommandSpan.toString (CommandSpan.Build CommandSpan.CODE (TextSpan.Build (js "\\")))
     = js "{c \\\\}"
  /\ CommandSpan.toString (CommandSpan.Build CommandSpan.CODE (TextSpan.Build (js "a\\b")))
     = js "{c a\\b}".
Proof.
  split; [|split; reflexivity].
  exists (CommandSpan.canonical ty), (tl (CommandSpan.getCommands ty)).
  split; [now destruct ty|].
  unfold CommandSpan.toString; cbn [CommandSpan.type CommandSpan.textSpan TextSpan.text].
  destruct content as [|c [|c' r]].
  - reflexivity.
  - unfold JsString.replace, isSpecial. simpl.
    destruct ((c =? BACKSLASH) || (c =? LBRACE) || (c =? RBRACE)); simpl;
      now rewrite <- !app_assoc.
  - unfold JsString.replace.
    cbn [List.length JsString.replaceFrom JsString.re_single_special].
    rewrite replaceFrom_single_special_later. simpl. now rewrite <- !app_assoc.
Qed.

(** ** Lists *)

Lemma replaceFrom_first_line_break fuel atStart f (before rest : jsstring) :
  ~ In LF before ->
  (List.length before < fuel)%nat ->
  JsString.replaceFrom fuel JsString.re_line_break false f atStart (before ++ LF :: rest)
  = before ++ f [LF] ++ rest.
Proof.
  revert atStart before; induction fuel as [|fuel IH]; intros atStart before Hnot Hlen; [lia|].
  destruct before as [|c before]; simpl.
  - reflexivity.
  - destruct (c =? LF) eqn:E.
    + apply N.eqb_eq in E. subst c. exfalso. apply Hnot. now left.
    + f_equal. apply IH; [|simpl in Hlen; lia].
      intros Hin. apply Hnot. now right.
Qed.

(** C2 does not hold of the code: the replacement that indents an item has
    no [g] flag, so only the first line break of an item is followed by two
    spaces and whatever comes after it is copied as it is.  The item the
    parser builds from ["* a\n  b\n  c"] is written back as ["* a\n  b\nc"]:
    its second line break is not indented, and parsing that text again gives
    a list and a paragraph. *)
Theorem List_toString_indents_first_line_break_only :
  (forall before rest : jsstring,
     ~ In LF before ->
     itemToString [Text (TextSpan.Build (before ++ LF :: rest))]
     = before ++ js "\n  " ++ rest)
  /\ parseDescription (js "* a\n  b\n  c")
     = Ok (Description.Build [List [[Text (TextSpan.Build (js "a\nb\nc"))]]])
  /\ List_toString [[Text (TextSpan.Build (js "a\nb\nc"))]] = js "\n* a\n  b\nc\n"
  /\ List_toString [[Text (TextSpan.Build (js "a\nb\nc"))]] <> js "\n* a\n  b\n  c\n"
  /\ Description.toString (Description.Build [List [[Text (TextSpan.Build (js "a\nb\nc"))]]])
     = js "* a\n  b\nc"
  /\ parseDescription (js "* a\n  b\nc")
     = Ok (Description.Build
             [List [[Text (TextSpan.Build (js "a\nb"))]];
              Paragraph [Text (TextSpan.Build (js "c"))]]).
Proof.
  split; [|repeat split; try reflexivity; discriminate].
  intros before rest Hnot.
  unfold itemToString, joinElements, JsString.join, JsString.replace. simpl.
  rewrite app_nil_r. apply replaceFrom_first_line_break; [exact Hnot|].
  rewrite length_app. simpl. lia.
Qed.

(** ** The block parser *)

Lemma lastOf_app {A : Type} (xs : list A) (x : A) : lastOf (xs ++ [x]) = Some x.
Proof.
  unfold lastOf. rewrite length_app. simpl.
  replace (List.length xs + 1 - 1)%nat with (List.length xs) by lia.
  rewrite nth_error_app2 by lia. now rewrite Nat.sub_diag.
Qed.

Lemma pushToLastItem_app items item xs :
  pushToLastItem (items ++ [item]) xs = Ok (items ++ [item ++ xs]).
Proof.
  unfold pushToLastItem. now rewrite lastOf_app, removelast_last.
Qed.

(** C6: while a list is open, a line that begins with two spaces goes to the
    last item of that list: the blocks and the paragraph accumulator are left
    as they are and the list stays open with the same number of items.  What
    is appended is the parse of the line behind its first two code units,
    with a line break text span in front exactly when the item already holds
    an element and the line does not begin with three spaces. *)
Theorem parseLine_continuation (st : BlockState) (line : jsstring)
    (items : list (list DescriptionInlineElement)) (item : list DescriptionInlineElement) :
  listItems st = Some (items ++ [item]) ->
  JsString.startsWith line (js "  ") = true ->
  parseLine st line =
    (parsed <- parseInlineElementes (JsString.substring line 2) ;;
     Ok {| blocks := blocks st;
           paragraphElements := paragraphElements st;
           listItems :=
             Some (items ++
                   [item ++
                    (if match item with [] => false | _ :: _ => true end
                        && negb (JsString.startsWith line (js "   "))
                     then [Text (TextSpan.Build (js "\n"))]
                     else []) ++
                    parsed]) |}).
Proof.
  intros Hopen Hline.
  apply startsWith_app in Hline as [rest ->].
  unfold parseLine. rewrite Hopen.
  change (JsString.startsWith (js "  " ++ rest) (js "* ")) with false.
  change (JsString.startsWith (js "  " ++ rest) (js "  ")) with true.
  cbv iota. rewrite lastOf_app.
  destruct item as [|e item].
  - cbn [List.length Nat.ltb Nat.leb andb bind].
    destruct (parseInlineElementes _); [|reflexivity].
    cbn [bind]. now rewrite pushToLastItem_app.
  - change (0 <? List.length (e :: item))%nat with true. cbn [andb].
    destruct (negb (JsString.startsWith (js "  " ++ rest) (js "   "))).
    + change (TextSpan.new (js "\n")) with (Ok (TextSpan.Build (js "\n"))).
      cbn [bind]. rewrite pushToLastItem_app. cbn [bind].
      destruct (parseInlineElementes _); [|reflexivity].
      cbn [bind]. rewrite pushToLastItem_app. now rewrite <- app_assoc.
    + cbn [bind]. destruct (parseInlineElementes _); [|reflexivity].
      cbn [bind]. now rewrite pushToLastItem_app.
Qed.

Lemma parseLine_continuation_witness :
  let st := {| blocks := [];
               paragraphElements := None;
               listItems := Some ([] ++ [[Text (TextSpan.Build (js "a"))]]) |} in
  listItems st = Some ([] ++ [[Text (TextSpan.Build (js "a"))]])
  /\ JsString.startsWith (js "  b {e c}") (js "  ") = true
  /\ parseLine st (js "  b {e c}") =
     Ok {| blocks := [];
           paragraphElements := None;
           listItems :=
             Some [[Text (TextSpan.Build (js "a"));
                    Text (TextSpan.Build (js "\n"));
                    Text (TextSpan.Build (js "b "));
                    Command (CommandSpan.Build CommandSpan.EMPHASIS (TextSpan.Build (js "c")))]] |}.
Proof.
  split; [reflexivity|]. split; [reflexivity|].
  exact (parseLine_continuation
           {| blocks := []; paragraphElements := None;
              listItems := Some ([] ++ [[Text (TextSpan.Build (js "a"))]]) |}
           (js "  b {e c}") [] [Text (TextSpan.Build (js "a"))] eq_refl eq_refl).
Defined.

(** ** Parsing and serializing *)

(** C7: when a text is the serialization of its own parse, parsing that
    serialization and serializing again gives the same text. *)
Theorem parse_toString_idempotent (s : jsstring) (d : Description.t) :
  parseDescription s = Ok d ->
  Description.toString d = s ->
  exists d',
    parseDescription (Description.toString d) = Ok d'
    /\ Description.toString d' = Description.toString d.
Proof.
  intros Hparse Hcanonical. exists d. now rewrite Hcanonical.
Qed.

Lemma parse_toString_idempotent_witness :
  let d := (Description.Build
                [Paragraph
                   [Text (TextSpan.Build (js "Hello "));
                    Command (CommandSpan.Build CommandSpan.EMPHASIS (TextSpan.Build (js "world")));
                    Text (TextSpan.Build (js "."))]]) in
  parseDescription (js "Hello {e world}.") = Ok d
  /\ Description.toString d = js "Hello {e world}."
  /\ exists d',
       parseDescription (Description.toString d) = Ok d'
       /\ Description.toString d' = Description.toString d.
Proof.
  split; [reflexivity|]. split; [reflexivity|].
  exact (parse_toString_idempotent (js "Hello {e world}.") _ eq_refl eq_refl).
Defined.

(** C9: ["{p }"] parses to one PROPER_NAME command span with empty content,
    the space behind the token being skipped, and that span is written back
    as ["{p}"], with no space before the closing brace. *)
Theorem parse_empty_content :
  parseInlineElementes (js "{p }")
  = Ok [Command (CommandSpan.Build CommandSpan.PROPER_NAME (TextSpan.Build (js "")))]
  /\ parseDescription (js "{p }")
     = Ok (Description.Build
               [Paragraph
                  [Command (CommandSpan.Build CommandSpan.PROPER_NAME
                              (TextSpan.Build (js "")))]])
  /\ CommandSpan.toString (CommandSpan.Build CommandSpan.PROPER_NAME (TextSpan.Build (js "")))
     = js "{p}"
  /\ (exists d, parseDescription (js "{p }") = Ok d /\ Description.toString d = js "{p}").
Proof.
  repeat split. eexists. split; reflexivity.
Qed.

(** ** The inline parser *)

(** C8: ["{zzz text}"] is no document: the parse throws the "unknown
    command" exception, which carries the token [zzz].  The scan stops at
    that first error, whatever follows on the line, and errors further right
    or further down are not reached. *)
Theorem parse_unknown_command :
  parseDescription (js "{zzz text}") = Throw (Exception (UNKNOWN_COMMAND (js "zzz")))
  /\ UNKNOWN_COMMAND (js "zzz") = js "Unknown command " ++ [QUOTE] ++ js "zzz" ++ [QUOTE]
  /\ (forall rest : jsstring,
        parseInlineElementes (js "{zzz text}" ++ rest)
        = Throw (Exception (UNKNOWN_COMMAND (js "zzz"))))
  /\ parseDescription (js "{zzz text} {}") = Throw (Exception (UNKNOWN_COMMAND (js "zzz")))
  /\ parseDescription (js "fine\n{zzz text}\n{e") = Throw (Exception (UNKNOWN_COMMAND (js "zzz")))
  /\ parseDescription (js "{zzz text}\n\n{yyy}") = Throw (Exception (UNKNOWN_COMMAND (js "zzz"))).
Proof.
  repeat split.
Qed.

Lemma scan_nil fuel st : scan fuel st [] = Ok st.
Proof. now destruct fuel. Qed.

Lemma takeWhile_app_stop (p : char -> bool) (s : jsstring) (x : char) :
  JsString.dropWhile p s <> [] ->
  JsString.takeWhile p (s ++ [x]) = JsString.takeWhile p s
  /\ JsString.dropWhile p (s ++ [x]) = JsString.dropWhile p s ++ [x].
Proof.
  induction s as [|c s IH]; simpl; [congruence|].
  destruct (p c); [|now split].
  intros H. destruct (IH H) as [-> ->]. now split.
Qed.

Lemma dropWhile_app_keep (p : char -> bool) (s : jsstring) (x : char) :
  p x = false ->
  JsString.dropWhile p (s ++ [x]) = JsString.dropWhile p s ++ [x].
Proof.
  intros Hx. induction s as [|c s IH]; simpl; [now rewrite Hx|].
  now destruct (p c).
Qed.

Lemma scan_cons fuel st c next :
  scan (S fuel) st (c :: next) = scanRound (scan fuel) st c next.
Proof. reflexivity. Qed.

(** One unit of fuel for each code unit is enough for the loop: more of it
    changes nothing, so the loop always reads the line to its end. *)
Lemma scan_fuel : forall fuel fuel' st rest,
  (List.length rest <= fuel)%nat -> (List.length rest <= fuel')%nat ->
  scan fuel st rest = scan fuel' st rest.
Proof.
  induction fuel as [|fuel IH]; intros fuel' st rest H H'.
  - destruct rest; [now destruct fuel' | simpl in H; lia].
  - destruct rest as [|c next]; [now destruct fuel'|].
    destruct fuel' as [|fuel']; simpl in H, H'; [lia|].
    rewrite !scan_cons. unfold scanRound.
    pose proof (length_dropWhile JsString.isWhiteSpace
                  (JsString.dropWhile isCommandChar next)).
    pose proof (length_dropWhile isCommandChar next).
    destruct (commandType st).
    + destruct (c =? RBRACE).
      * destruct (TextSpan.new (text st)); [|reflexivity]. apply IH; lia.
      * destruct next as [|escChar next']; [apply IH; simpl; lia|].
        destruct ((c =? BACKSLASH) && _); apply IH; simpl in *; lia.
    + destruct (c =? LBRACE); [|apply IH; lia].
      destruct (pushTextSpan st); [|reflexivity]. cbn [bind].
      destruct (JsString.eqb _ []); [reflexivity|].
      destruct (CommandSpan.fromCommand _); [|reflexivity].
      apply IH; lia.
Qed.

(** A scan that ends outside a command, with a text buffer that can be
    flushed, is a scan that fails on an opening brace put behind the line. *)
Lemma scan_open_brace fuel : forall st rest st' flushed,
  (List.length rest <= fuel)%nat ->
  scan fuel st rest = Ok st' ->
  commandType st' = None ->
  pushTextSpan st' = Ok flushed ->
  scan (S fuel) st (rest ++ [LBRACE]) = Throw (Exception BRACES_WITHOUT_COMMAND).
Proof.
  assert (Hbase : forall fuel st flushed,
             commandType st = None -> pushTextSpan st = Ok flushed ->
             scan (S fuel) st [LBRACE] = Throw (Exception BRACES_WITHOUT_COMMAND)).
  { intros f st flushed Hplain Hflush. rewrite scan_cons. unfold scanRound.
    now rewrite Hplain, Hflush. }
  induction fuel as [|fuel IH]; intros st rest st' flushed Hlen Hscan Hplain Hflush.
  - destruct rest; [|simpl in Hlen; lia]. injection Hscan as ->. eauto.
  - destruct rest as [|c next]; [injection Hscan as ->; eauto|].
    simpl in Hlen. change ((c :: next) ++ [LBRACE]) with (c :: (next ++ [LBRACE])).
    rewrite scan_cons in Hscan |- *. unfold scanRound in Hscan |- *.
    destruct (commandType st) as [ty|] eqn:Hty.
    + (* inside a command *)
      destruct (c =? RBRACE).
      * destruct (TextSpan.new (text st)) as [span|e]; [|discriminate].
        cbn [bind] in Hscan |- *.
        eapply IH; eauto; lia.
      * destruct next as [|escChar next'].
        -- rewrite scan_nil in Hscan. injection Hscan as <-.
           simpl in Hplain. congruence.
        -- cbn [app].
           destruct ((c =? BACKSLASH) &&
                     ((escChar =? BACKSLASH) || (escChar =? LBRACE) || (escChar =? RBRACE))).
           ++ eapply IH; eauto. simpl in Hlen. lia.
           ++ change (escChar :: (next' ++ [LBRACE])) with ((escChar :: next') ++ [LBRACE]).
              eapply IH; eauto. lia.
    + (* plain text *)
      destruct (c =? LBRACE); [|eapply IH; eauto; lia].
      destruct (pushTextSpan st) as [st1|e]; [|discriminate].
      cbn [bind] in Hscan |- *.
      destruct (JsString.dropWhile isCommandChar next) as [|d ds] eqn:Hdrop.
      * (* the token runs to the end of the line *)
        exfalso.
        destruct (JsString.eqb (JsString.takeWhile isCommandChar next) []);
          [discriminate|].
        destruct (CommandSpan.fromCommand _); [|discriminate].
        cbn [JsString.dropWhile] in Hscan.
        rewrite scan_nil in Hscan. injection Hscan as <-.
        simpl in Hplain. discriminate.
      * assert (Hne : JsString.dropWhile isCommandChar next <> [])
          by (rewrite Hdrop; discriminate).
        destruct (takeWhile_app_stop isCommandChar next LBRACE Hne) as [-> ->].
        rewrite Hdrop.
        destruct (JsString.eqb (JsString.takeWhile isCommandChar next) []);
          [discriminate|].
        destruct (CommandSpan.fromCommand _); [|discriminate].
        rewrite dropWhile_app_keep by reflexivity.
        eapply IH; eauto.
        pose proof (length_dropWhile JsString.isWhiteSpace (d :: ds)).
        pose proof (length_dropWhile isCommandChar next).
        rewrite Hdrop in *. simpl in *. lia.
Qed.

(** The [for] loop itself throws no "unclosed command". *)
Lemma scan_throws fuel : forall st rest e,
  scan fuel st rest = Throw e ->
  e = Exception BRACES_WITHOUT_COMMAND
  \/ (exists commandStr, e = Exception (UNKNOWN_COMMAND commandStr))
  \/ e = Exception TextSpan.MULTIPLE_LINE_BREAKS.
Proof.
  assert (Hnew : forall s e, TextSpan.new s = Throw e ->
                             e = Exception TextSpan.MULTIPLE_LINE_BREAKS).
  { intros s e. rewrite TextSpan_new_cases.
    destruct (JsString.includes s [LF; LF]); congruence. }
  induction fuel as [|fuel IH]; intros st rest e H; [discriminate|].
  destruct rest as [|c next]; [discriminate|].
  rewrite scan_cons in H. unfold scanRound in H.
  destruct (commandType st) as [ty|].
  - destruct (c =? RBRACE).
    + destruct (TextSpan.new (text st)) as [span|e'] eqn:E; cbn [bind] in H.
      * eauto.
      * injection H as <-. right; right. eauto.
    + destruct next as [|escChar next']; [eauto|].
      destruct ((c =? BACKSLASH) && _); eauto.
  - destruct (c =? LBRACE); [|eauto].
    unfold pushTextSpan in H.
    destruct (negb (JsString.eqb (text st) [])).
    + destruct (TextSpan.new (text st)) as [span|e'] eqn:E; cbn [bind] in H.
      * destruct (JsString.eqb _ []); [injection H as <-; now left|].
        destruct (CommandSpan.fromCommand _) eqn:F; [eauto|].
        injection H as <-. right; left. eauto.
      * injection H as <-. right; right. eauto.
    + cbn [bind] in H.
      destruct (JsString.eqb _ []); [injection H as <-; now left|].
      destruct (CommandSpan.fromCommand _) eqn:F; [eauto|].
      injection H as <-. right; left. eauto.
Qed.

(** C10, as amended: a line made of a line the inline parser accepts and an
    opening brace behind it fails with "braces without command": the brace is
    met outside a command and the token read behind it is empty.  "Unclosed
    command" is thrown exactly when the loop ends inside a command, that is
    after a token was resolved. *)
Theorem parseInlineElementes_final_brace :
  (forall (line : jsstring) (parsed : list DescriptionInlineElement),
     parseInlineElementes line = Ok parsed ->
     parseInlineElementes (line ++ [LBRACE]) = Throw (Exception BRACES_WITHOUT_COMMAND))
  /\ (forall line : jsstring,
        parseInlineElementes line = Throw (Exception UNCLOSED_COMMAND)
        <-> exists st ty,
              scan (List.length line) {| elements := []; commandType := None; text := [] |} line
              = Ok st
              /\ commandType st = Some ty)
  /\ BRACES_WITHOUT_COMMAND = js "Braces without command"
  /\ UNCLOSED_COMMAND = js "Unclosed command".
Proof.
  split; [|split; [|split; reflexivity]].
  - intros line parsed H. unfold parseInlineElementes in *.
    rewrite length_app, Nat.add_1_r.
    destruct (scan (List.length line) _ line) as [st|e] eqn:Hscan; [|discriminate].
    cbn [bind] in H.
    destruct (commandType st) eqn:Hty; [discriminate|].
    destruct (pushTextSpan st) as [flushed|e] eqn:Hflush; [|discriminate].
    erewrite scan_open_brace; eauto.
  - intros line. unfold parseInlineElementes.
    destruct (scan (List.length line) _ line) as [st|e] eqn:Hscan; cbn [bind].
    + destruct (commandType st) as [ty|] eqn:Hty.
      * split; [eauto | reflexivity].
      * split.
        -- unfold pushTextSpan. destruct (negb _); cbn [bind]; [|discriminate].
           rewrite TextSpan_new_cases.
           destruct (JsString.includes _ _); cbn [bind]; discriminate.
        -- intros [st' [ty [Hst Hty']]]. congruence.
    + split.
      * intros H. injection H as ->. apply scan_throws in Hscan.
        destruct Hscan as [H | [[commandStr H] | H]]; discriminate.
      * intros [st' [ty [Hst _]]]. discriminate.
Qed.

Lemma parseInlineElementes_final_brace_witness :
  parseInlineElementes (js "see {c x} and ") =
    Ok [Text (TextSpan.Build (js "see "));
        Command (CommandSpan.Build CommandSpan.CODE (TextSpan.Build (js "x")));
        Text (TextSpan.Build (js " and "))]
  /\ parseInlineElementes (js "see {c x} and " ++ [LBRACE])
     = Throw (Exception BRACES_WITHOUT_COMMAND).
Proof.
  split; [reflexivity|].
  exact (proj1 parseInlineElementes_final_brace (js "see {c x} and ") _ eq_refl).
Defined.

(** C10, as stated, fails when the final brace stands inside a command body:
    there it is content, and the line fails with "unclosed command". *)
Lemma final_brace_inside_command :
  parseInlineElementes (js "{e {") = Throw (Exception UNCLOSED_COMMAND)
  /\ parseInlineElementes (js "{e {") <> Throw (Exception BRACES_WITHOUT_COMMAND).
Proof. split; [reflexivity | discriminate]. Qed.

(** ** The span optimizer *)

Lemma removelast_snoc {A : Type} (xs : list A) (x : A) : removelast (xs ++ [x]) = xs.
Proof. apply removelast_last. Qed.

Lemma bind_bind {A B C : Type} (m : result A) (k : A -> result B) (h : B -> result C) :
  bind (bind m k) h = bind m (fun a => bind (k a) h).
Proof. now destruct m. Qed.

(** A text span met after a command span, or as the first element. *)
Lemma optimizeStep_after_command acc cmd element :
  optimizeStep (acc ++ [Command cmd]) element =
    match element with
    | Text span =>
        if isEmptySpan span then Ok (acc ++ [Command cmd])
        else Ok ((acc ++ [Command cmd]) ++ [element])
    | Command _ => Ok ((acc ++ [Command cmd]) ++ [element])
    end.
Proof.
  unfold optimizeStep, isEmptySpan. rewrite lastOf_app.
  destruct element as [span|span]; [|reflexivity].
  now destruct (JsString.eqb (TextSpan.text span) []).
Qed.

(** An element met after a text span. *)
Lemma optimizeStep_after_text acc last element :
  optimizeStep (acc ++ [Text last]) element =
    match element with
    | Text span =>
        if isEmptySpan span then Ok (acc ++ [Text last])
        else merged <- mergeSpans last span ;; Ok (acc ++ [Text merged])
    | Command _ => Ok ((acc ++ [Text last]) ++ [element])
    end.
Proof.
  unfold optimizeStep, isEmptySpan, mergeSpans. rewrite lastOf_app.
  destruct element as [span|span]; [|reflexivity].
  destruct (JsString.eqb (TextSpan.text span) []); [reflexivity|].
  cbn [negb]. now rewrite removelast_snoc.
Qed.

(** What the segments of a sequence that begins with a text span merge to. *)
Lemma mergeSegments_text span elements :
  mergeSegments (segments (Text span :: elements)) =
    match segments elements with
    | TextRun spans :: segs =>
        out <- mergeRun (span :: spans) ;; outs <- mergeSegments segs ;; Ok (out ++ outs)
    | segs =>
        out <- mergeRun [span] ;; outs <- mergeSegments segs ;; Ok (out ++ outs)
    end.
Proof.
  cbn [segments]. destruct (segments elements) as [|[spans|cmd] segs]; reflexivity.
Qed.

Lemma bind_ext {A B : Type} (m : result A) (k k' : A -> result B) :
  (forall a, k a = k' a) -> bind m k = bind m k'.
Proof. intros H. destruct m; [apply H | reflexivity]. Qed.

(** Both sides bind the same computations, and the results agree up to the
    bracketing of [++]. *)
Ltac bind_eq :=
  repeat (rewrite bind_bind || cbn [bind app]);
  rewrite <- ?app_assoc;
  first [ reflexivity
        | apply bind_ext; intros ?; bind_eq ].

(** The loop of the optimizer, started on an array that is not empty, against
    the segments of what is still to be read. *)
Lemma forEach_optimizeStep elements :
  (forall acc cmd,
     forEach optimizeStep elements (acc ++ [Command cmd]) =
       (outs <- mergedRuns elements ;; Ok ((acc ++ [Command cmd]) ++ outs)))
  /\ (forall acc last,
        forEach optimizeStep elements (acc ++ [Text last]) =
          match segments elements with
          | TextRun spans :: segs =>
              merged <- forEach mergeSpans
                          (filter (fun span => negb (isEmptySpan span)) spans) last ;;
              outs <- mergeSegments segs ;;
              Ok ((acc ++ [Text merged]) ++ outs)
          | segs =>
              outs <- mergeSegments segs ;;
              Ok ((acc ++ [Text last]) ++ outs)
          end).
Proof.
  unfold mergedRuns.
  induction elements as [|element elements [IHcmd IHtext]].
  - split; intros; simpl; now rewrite app_nil_r.
  - split.
    + intros acc cmd. cbn [forEach]. rewrite optimizeStep_after_command.
      destruct element as [span|span].
      * rewrite mergeSegments_text. unfold mergeRun. cbn [filter].
        destruct (isEmptySpan span) eqn:Hempty; cbn [negb bind].
        -- rewrite IHcmd.
           destruct (segments elements) as [|[spans|cmd'] segs];
             cbn [mergeSegments mergeSegment]; unfold mergeRun; bind_eq.
        -- rewrite IHtext.
           destruct (segments elements) as [|[spans|cmd'] segs];
             cbn [forEach]; bind_eq.
      * cbn [bind segments mergeSegments mergeSegment]. rewrite IHcmd. bind_eq.
    + intros acc last. cbn [forEach]. rewrite optimizeStep_after_text.
      destruct element as [span|span].
      * assert (Hrun : segments (Text span :: elements) =
                       match segments elements with
                       | TextRun spans :: segs => TextRun (span :: spans) :: segs
                       | segs => TextRun [span] :: segs
                       end) by reflexivity.
        rewrite Hrun. clear Hrun.
        destruct (isEmptySpan span) eqn:Hempty.
        -- cbn [bind]. rewrite IHtext.
           destruct (segments elements) as [|[spans|cmd'] segs]; cbn [filter];
             rewrite Hempty; cbn [negb forEach]; bind_eq.
        -- rewrite bind_bind.
           destruct (segments elements) as [|[spans|cmd'] segs] eqn:Hsegs; cbn [filter];
             rewrite Hempty; cbn [negb forEach]; repeat (rewrite bind_bind || cbn [bind]);
             apply bind_ext; intros merged; rewrite IHtext; bind_eq.
      * cbn [bind segments]. rewrite IHcmd.
        cbn [mergeSegments mergeSegment]. bind_eq.
Qed.

(** C3, as amended: on a sequence that does not begin with an empty text
    span, [optimizeElements] does what merging run by run does: command
    spans are passed on unchanged and in their places, every maximal run of
    adjacent text spans gives at most one text span, empty text spans are
    dropped, and no merge crosses a command span.  The text of a merged span
    is built by the [TextSpan] constructor from the concatenation, so its
    whitespace runs are collapsed again, and the optimizer throws when a
    concatenation holds two line breaks in a row. *)
Theorem optimizeElements_merges_runs (elements : list DescriptionInlineElement) :
  beginsWithEmptyText elements = false ->
  optimizeElements elements = mergedRuns elements.
Proof.
  intros Hfirst. unfold optimizeElements.
  destruct elements as [|[span|span] elements]; [reflexivity| |].
  - cbn [beginsWithEmptyText] in Hfirst. cbn [forEach].
    change (optimizeStep [] (Text span)) with (Ok ([] ++ [Text span])).
    cbn [bind]. rewrite (proj2 (forEach_optimizeStep elements)).
    unfold mergedRuns. rewrite mergeSegments_text. unfold mergeRun. cbn [filter].
    rewrite Hfirst. cbn [negb].
    destruct (segments elements) as [|[spans|cmd'] segs]; cbn [forEach]; bind_eq.
  - cbn [forEach].
    change (optimizeStep [] (Command span)) with (Ok ([] ++ [Command span])).
    cbn [bind]. rewrite (proj1 (forEach_optimizeStep elements)).
    unfold mergedRuns. cbn [segments mergeSegments mergeSegment]. bind_eq.
Qed.

Lemma optimizeElements_merges_runs_witness :
  let cmd := Command (CommandSpan.Build CommandSpan.EMPHASIS (TextSpan.Build (js "x"))) in
  let elements :=
    [Text (TextSpan.Build (js "a ")); Text (TextSpan.Build (js ""));
     Text (TextSpan.Build (js " b")); cmd;
     Text (TextSpan.Build (js "")); Text (TextSpan.Build (js "c"))] in
  beginsWithEmptyText elements = false
  /\ optimizeElements elements = mergedRuns elements
  /\ mergedRuns elements
     = Ok [Text (TextSpan.Build (js "a b")); cmd; Text (TextSpan.Build (js "c"))].
Proof.
  split; [reflexivity|]. split; [|reflexivity].
  apply optimizeElements_merges_runs. reflexivity.
Defined.

(** C3, as stated, fails: ["a "] and [" b"] are merged to ["a b"], which is
    not their concatenation; merging ["a\n"] and ["\nb"] throws instead of
    returning a sequence; and an empty text span that comes first is kept. *)
Lemma optimizeElements_not_plain_concatenation :
  TextSpan.new (js "a ") = Ok (TextSpan.Build (js "a "))
  /\ TextSpan.new (js " b") = Ok (TextSpan.Build (js " b"))
  /\ optimizeElements [Text (TextSpan.Build (js "a ")); Text (TextSpan.Build (js " b"))]
     = Ok [Text (TextSpan.Build (js "a b"))]
  /\ js "a b" <> js "a " ++ js " b"
  /\ optimizeElements [Text (TextSpan.Build (js "a\n")); Text (TextSpan.Build (js "\nb"))]
     = Throw (Exception TextSpan.MULTIPLE_LINE_BREAKS)
  /\ optimizeElements
       [Text (TextSpan.Build (js ""));
        Command (CommandSpan.Build CommandSpan.CODE (TextSpan.Build (js "x")))]
     = Ok [Text (TextSpan.Build (js ""));
           Command (CommandSpan.Build CommandSpan.CODE (TextSpan.Build (js "x")))].
Proof. repeat split. discriminate. Qed.

(** * Further properties of the code *)

(** ** The command type catalog *)

Lemma fromCommand_alias (ty : CommandSpan.Type_) (alias : jsstring) :
  In alias (CommandSpan.getCommands ty) -> CommandSpan.fromCommand alias = Some ty.
Proof.
  destruct ty; simpl; intros H;
    repeat (destruct H as [<- | H]; [reflexivity|]); contradiction.
Qed.

Lemma fromCommand_Some (command : jsstring) (ty : CommandSpan.Type_) :
  CommandSpan.fromCommand command = Some ty -> In command (CommandSpan.getCommands ty).
Proof.
  unfold CommandSpan.fromCommand. intros H. apply find_some in H as [_ H].
  apply existsb_exists in H as [alias [Hin Heq]]. apply eqb_eq in Heq. now subst.
Qed.

(** X1: looking a command up by alias inverts [getCommands]: every alias of
    a type is resolved to that type, and a command is resolved to a type only
    when it is one of the aliases of that type; so no alias belongs to two
    types. *)
Theorem fromCommand_inverts_getCommands :
  (forall ty alias,
     In alias (CommandSpan.getCommands ty) -> CommandSpan.fromCommand alias = Some ty)
  /\ (forall command ty,
        CommandSpan.fromCommand command = Some ty ->
        In command (CommandSpan.getCommands ty))
  /\ (forall ty ty' alias,
        In alias (CommandSpan.getCommands ty) ->
        In alias (CommandSpan.getCommands ty') -> ty = ty').
Proof.
  split; [exact fromCommand_alias|]. split; [exact fromCommand_Some|].
  intros ty ty' alias H H'.
  apply fromCommand_alias in H, H'. congruence.
Qed.

(** X2: looking a type up by name inverts [Type.toString]: the name of a type
    is resolved to that type, and only the name of a type is resolved to
    it. *)
Theorem from_inverts_toString :
  (forall ty, CommandSpan.from (Type_toString ty) = Some ty)
  /\ (forall n ty, CommandSpan.from n = Some ty -> n = Type_toString ty).
Proof.
  split; [now destruct ty|].
  intros n ty H. unfold CommandSpan.from in H. apply find_some in H as [_ H].
  apply eqb_eq in H. now subst.
Qed.

(** X3: [values()] lists every type once, at the index that is its
    ordinal. *)
Theorem values_by_ordinal :
  (forall ty, nth_error CommandSpan.values (N.to_nat (CommandSpan.ordinal ty)) = Some ty)
  /\ (forall i ty, nth_error CommandSpan.values i = Some ty ->
                   i = N.to_nat (CommandSpan.ordinal ty))
  /\ NoDup CommandSpan.values.
Proof.
  split; [now destruct ty|]. split.
  - intros i ty H.
    do 8 (destruct i as [|i]; [injection H as <-; reflexivity|]).
    now destruct i.
  - unfold CommandSpan.values, CommandSpan._values.
    repeat (constructor; [simpl; intuition discriminate|]). constructor.
Qed.

(** ** The text kept by a text span *)

Lemma noAdjacentWhiteSpace_keepRunHeads (b : bool) (s : jsstring) :
  noAdjacentWhiteSpace b (keepRunHeads b s) = true.
Proof.
  revert b; induction s as [|c s IH]; intros b; simpl; [reflexivity|].
  destruct (JsString.isWhiteSpace c) eqn:E.
  - destruct b; [apply IH|]. simpl. rewrite E. apply IH.
  - simpl. rewrite E. apply IH.
Qed.

Lemma keepRunHeads_fixed (b : bool) (s : jsstring) :
  noAdjacentWhiteSpace b s = true -> keepRunHeads b s = s.
Proof.
  revert b; induction s as [|c s IH]; intros b; simpl; [reflexivity|].
  destruct (JsString.isWhiteSpace c) eqn:E.
  - destruct b; [discriminate|]. simpl. intros H. now rewrite IH.
  - intros H. now rewrite IH.
Qed.

Lemma noAdjacentWhiteSpace_split (b : bool) (s before rest : jsstring) (c1 c2 : char) :
  noAdjacentWhiteSpace b s = true ->
  s = before ++ c1 :: c2 :: rest ->
  JsString.isWhiteSpace c1 = true -> JsString.isWhiteSpace c2 = false.
Proof.
  revert b s; induction before as [|x before IH]; intros b s H -> Hc1.
  - simpl in H. rewrite Hc1 in H.
    destruct (JsString.isWhiteSpace c2); [|reflexivity].
    apply andb_true_iff in H as [_ H]. discriminate.
  - simpl in H. destruct (JsString.isWhiteSpace x).
    + apply andb_true_iff in H as [_ H]. eapply IH; eauto.
    + eapply IH; eauto.
Qed.

Lemma noAdjacentWhiteSpace_includes (b : bool) (s : jsstring) :
  noAdjacentWhiteSpace b s = true -> JsString.includes s [LF; LF] = false.
Proof.
  intros H. destruct (JsString.includes s [LF; LF]) eqn:E; [|reflexivity].
  apply includes_app in E as [before [rest E]].
  now pose proof (noAdjacentWhiteSpace_split b s before rest LF LF H E eq_refl).
Qed.

(** X4: the text a constructed [TextSpan] holds has no two white space code
    units side by side, and constructing a span from that text again gives
    the same span. *)
Theorem TextSpan_text_normal (s : jsstring) (span : TextSpan.t) :
  TextSpan.new s = Ok span ->
  (forall before c1 c2 rest,
     TextSpan.text span = before ++ c1 :: c2 :: rest ->
     JsString.isWhiteSpace c1 = true -> JsString.isWhiteSpace c2 = false)
  /\ TextSpan.new (TextSpan.text span) = Ok span.
Proof.
  rewrite TextSpan_new_cases.
  destruct (JsString.includes s [LF; LF]); [discriminate|].
  intros H. injection H as <-. cbn [TextSpan.text].
  pose proof (noAdjacentWhiteSpace_keepRunHeads false s) as Hn.
  split.
  - intros before c1 c2 rest. now apply noAdjacentWhiteSpace_split with (b := false).
  - rewrite TextSpan_new_cases, (noAdjacentWhiteSpace_includes _ _ Hn).
    now rewrite keepRunHeads_fixed.
Qed.

Lemma TextSpan_text_normal_witness :
  TextSpan.new (js "a \t b\n \nc") = Ok (TextSpan.Build (js "a b\nc"))
  /\ TextSpan.new (js "a b\nc") = Ok (TextSpan.Build (js "a b\nc")).
Proof.
  split; [reflexivity|].
  exact (proj2 (TextSpan_text_normal (js "a \t b\n \nc") _ eq_refl)).
Defined.

(** ** Lines without commands, and commands that fail *)

(** The loop may be given more fuel than the line is long. *)
Lemma parseInlineElementes_fuel (fuel : nat) (str : jsstring) :
  (List.length str <= fuel)%nat ->
  parseInlineElementes str =
    (st <- scan fuel {| elements := []; commandType := None; text := [] |} str ;;
     match commandType st with
     | Some _ => Throw (Exception UNCLOSED_COMMAND)
     | None => st <- pushTextSpan st ;; Ok (elements st)
     end).
Proof.
  intros H. unfold parseInlineElementes.
  now rewrite (scan_fuel (List.length str) fuel) by lia.
Qed.

(** Outside a command, code units other than the opening brace are gathered
    in the text buffer. *)
Lemma scan_plain_prefix (pre : jsstring) : forall fuel st rest,
  commandType st = None ->
  ~ In LBRACE pre ->
  (List.length (pre ++ rest) <= fuel)%nat ->
  scan fuel st (pre ++ rest) =
  scan fuel {| elements := elements st; commandType := None; text := text st ++ pre |} rest.
Proof.
  induction pre as [|c pre IH]; intros fuel st rest Hplain Hno Hlen.
  - destruct st as [els ty txt]. simpl in *. subst ty. now rewrite app_nil_r.
  - destruct fuel as [|fuel]; [simpl in Hlen; lia|].
    cbn [app]. rewrite scan_cons. unfold scanRound. rewrite Hplain.
    destruct (c =? LBRACE) eqn:E.
    { apply N.eqb_eq in E. exfalso. apply Hno. now left. }
    simpl in Hlen. rewrite IH; [|exact Hplain|intros H; apply Hno; now right|lia].
    cbn [appendText elements text]. rewrite <- app_assoc. cbn [app].
    apply scan_fuel; rewrite length_app in Hlen; lia.
Qed.

(** X5: a line without an opening brace is one text span made of the whole
    line, closing braces and backslashes included; the empty line gives no
    element. *)
Theorem parseInlineElementes_plain (str : jsstring) :
  ~ In LBRACE str ->
  parseInlineElementes str =
    match str with
    | [] => Ok []
    | _ :: _ => span <- TextSpan.new str ;; Ok [Text span]
    end.
Proof.
  intros Hno. unfold parseInlineElementes.
  pose proof (scan_plain_prefix str (List.length str)
                {| elements := []; commandType := None; text := [] |} []
                eq_refl Hno) as H.
  rewrite app_nil_r in H. rewrite H by lia. rewrite scan_nil.
  cbn [bind commandType]. unfold pushTextSpan. cbn [text elements commandType app].
  destruct str as [|c str]; [reflexivity|].
  cbn [JsString.eqb negb]. now destruct (TextSpan.new (c :: str)).
Qed.

Lemma parseInlineElementes_plain_witness :
  ~ In LBRACE (js "a } b \\ c")
  /\ parseInlineElementes (js "a } b \\ c") = Ok [Text (TextSpan.Build (js "a } b \\ c"))].
Proof.
  assert (H : ~ In LBRACE (js "a } b \\ c")) by (simpl; intuition discriminate).
  split; [exact H|].
  exact (parseInlineElementes_plain (js "a } b \\ c") H).
Defined.

(** The state in which the loop meets an opening brace that follows plain
    text. *)
Lemma parseInlineElementes_after_plain (pre rest : jsstring) :
  ~ In LBRACE pre ->
  parseInlineElementes (pre ++ LBRACE :: rest) =
    (st <- scan (S (List.length rest))
             {| elements := []; commandType := None; text := pre |} (LBRACE :: rest) ;;
     match commandType st with
     | Some _ => Throw (Exception UNCLOSED_COMMAND)
     | None => st <- pushTextSpan st ;; Ok (elements st)
     end).
Proof.
  intros Hno.
  rewrite (parseInlineElementes_fuel (List.length (pre ++ LBRACE :: rest))) by lia.
  rewrite scan_plain_prefix by (trivial; lia).
  cbn [elements text app].
  rewrite (scan_fuel _ (S (List.length rest))); [reflexivity| |simpl; lia].
  rewrite length_app. simpl. lia.
Qed.

Lemma pushTextSpan_plain (pre : jsstring) :
  JsString.includes pre [LF; LF] = false ->
  exists els,
    pushTextSpan {| elements := []; commandType := None; text := pre |}
    = Ok {| elements := els; commandType := None; text := [] |}.
Proof.
  intros H. unfold pushTextSpan. cbn [text elements commandType].
  destruct pre as [|c pre]; [now exists []|].
  cbn [JsString.eqb negb]. rewrite TextSpan_new_cases, H. cbn [bind]. now eexists.
Qed.

(** X6: when the token behind an opening brace that follows plain text is
    no alias of the catalog, the line fails: with "braces without command"
    when the token is empty, and else with "unknown command" and that very
    token. *)
Theorem parseInlineElementes_bad_token (pre rest : jsstring) :
  ~ In LBRACE pre ->
  JsString.includes pre [LF; LF] = false ->
  CommandSpan.fromCommand (JsString.takeWhile isCommandChar rest) = None ->
  parseInlineElementes (pre ++ LBRACE :: rest) =
    Throw (Exception
             (match JsString.takeWhile isCommandChar rest with
              | [] => BRACES_WITHOUT_COMMAND
              | commandStr => UNKNOWN_COMMAND commandStr
              end)).
Proof.
  intros Hno Hbreaks Hunknown.
  rewrite parseInlineElementes_after_plain by exact Hno.
  rewrite scan_cons. unfold scanRound. cbn [commandType].
  change (LBRACE =? LBRACE) with true. cbv iota.
  destruct (pushTextSpan_plain pre Hbreaks) as [els ->]. cbn [bind].
  rewrite Hunknown.
  now destruct (JsString.takeWhile isCommandChar rest).
Qed.

Lemma parseInlineElementes_bad_token_witness :
  parseInlineElementes (js "see {zz top} and { }")
  = Throw (Exception (UNKNOWN_COMMAND (js "zz")))
  /\ parseInlineElementes (js "see { c}") = Throw (Exception BRACES_WITHOUT_COMMAND).
Proof.
  split.
  - apply (parseInlineElementes_bad_token (js "see ") (js "zz top} and { }")).
    + simpl; intuition discriminate.
    + reflexivity.
    + reflexivity.
  - apply (parseInlineElementes_bad_token (js "see ") (js " c}")).
    + simpl; intuition discriminate.
    + reflexivity.
    + reflexivity.
Defined.

Lemma In_dropWhile (p : char -> bool) (x : char) (s : jsstring) :
  In x (JsString.dropWhile p s) -> In x s.
Proof.
  induction s as [|c s IH]; simpl; [easy|].
  destruct (p c); [intros H; right; now apply IH | easy].
Qed.

(** Inside a command, a line without a closing brace leaves the command
    open. *)
Lemma scan_in_command (fuel : nat) : forall st rest ty,
  commandType st = Some ty ->
  ~ In RBRACE rest ->
  exists st', scan fuel st rest = Ok st' /\ commandType st' = Some ty.
Proof.
  induction fuel as [|fuel IH]; intros st rest ty Hty Hno; [now exists st|].
  destruct rest as [|c next]; [now exists st|].
  rewrite scan_cons. unfold scanRound. rewrite Hty.
  destruct (c =? RBRACE) eqn:E.
  { apply N.eqb_eq in E. exfalso. apply Hno. now left. }
  destruct next as [|escChar next'].
  - now apply IH.
  - destruct ((c =? BACKSLASH) && _).
    + apply IH; [exact Hty|]. intros H. apply Hno. now right; right.
    + apply IH; [exact Hty|]. intros H. apply Hno. now right.
Qed.

(** X7: a command that is opened behind plain text with an alias of the
    catalog and is followed by no closing brace makes the line fail with
    "unclosed command", whatever else the line holds. *)
Theorem parseInlineElementes_unclosed (pre rest : jsstring) (ty : CommandSpan.Type_) :
  ~ In LBRACE pre ->
  JsString.includes pre [LF; LF] = false ->
  CommandSpan.fromCommand (JsString.takeWhile isCommandChar rest) = Some ty ->
  ~ In RBRACE rest ->
  parseInlineElementes (pre ++ LBRACE :: rest) = Throw (Exception UNCLOSED_COMMAND).
Proof.
  intros Hno Hbreaks Hknown Hopen.
  rewrite parseInlineElementes_after_plain by exact Hno.
  rewrite scan_cons. unfold scanRound. cbn [commandType].
  change (LBRACE =? LBRACE) with true. cbv iota.
  destruct (pushTextSpan_plain pre Hbreaks) as [els ->]. cbn [bind].
  rewrite Hknown.
  destruct (JsString.takeWhile isCommandChar rest) as [|c tok] eqn:Htok;
    [discriminate|]. cbn [JsString.eqb].
  edestruct (scan_in_command (List.length rest)) as [st' [-> Hst']].
  - reflexivity.
  - intros H. apply Hopen. eapply In_dropWhile, In_dropWhile, H.
  - cbn [bind]. now rewrite Hst'.
Qed.

Lemma parseInlineElementes_unclosed_witness :
  parseInlineElementes (js "see {e never \\{ closed") = Throw (Exception UNCLOSED_COMMAND).
Proof.
  apply (parseInlineElementes_unclosed (js "see ") (js "e never \\{ closed")
           CommandSpan.EMPHASIS).
  - simpl; intuition discriminate.
  - reflexivity.
  - reflexivity.
  - simpl; intuition discriminate.
Defined.

(** ** Writing a command span and reading it back *)

Lemma CommandSpan_toString_cases (ty : CommandSpan.Type_) (content : jsstring) :
  CommandSpan.toString (CommandSpan.Build ty (TextSpan.Build content)) =
    LBRACE :: CommandSpan.canonical ty ++
    match content with
    | [] => [RBRACE]
    | [c] => if isSpecial c then [SPACE; BACKSLASH; c; RBRACE] else [SPACE; c; RBRACE]
    | _ => SPACE :: content ++ [RBRACE]
    end.
Proof.
  unfold CommandSpan.toString; cbn [CommandSpan.type CommandSpan.textSpan TextSpan.text].
  destruct content as [|c [|c' r]].
  - reflexivity.
  - unfold JsString.replace, isSpecial. simpl.
    destruct ((c =? BACKSLASH) || (c =? LBRACE) || (c =? RBRACE)); simpl;
      now rewrite <- !app_assoc.
  - unfold JsString.replace.
    cbn [List.length JsString.replaceFrom JsString.re_single_special].
    rewrite replaceFrom_single_special_later. simpl. now rewrite <- !app_assoc.
Qed.

Lemma takeWhile_app_all (p : char -> bool) (a : jsstring) (d : char) (r : jsstring) :
  forallb p a = true -> p d = false ->
  JsString.takeWhile p (a ++ d :: r) = a /\ JsString.dropWhile p (a ++ d :: r) = d :: r.
Proof.
  intros Ha Hd. induction a as [|c a IH]; simpl.
  - now rewrite Hd.
  - simpl in Ha. apply andb_true_iff in Ha as [-> Ha].
    destruct (IH Ha) as [-> ->]. now split.
Qed.

(** The first alias of a type is a token the loop reads whole and resolves
    to the type. *)
Lemma canonical_token (ty : CommandSpan.Type_) :
  forallb isCommandChar (CommandSpan.canonical ty) = true
  /\ JsString.eqb (CommandSpan.canonical ty) [] = false
  /\ CommandSpan.fromCommand (CommandSpan.canonical ty) = Some ty.
Proof. now destruct ty. Qed.

(** Inside a command, code units other than the closing brace and the
    backslash are gathered up to the closing brace, where the span is
    built. *)
Lemma scan_body (body : jsstring) : forall fuel st rest ty,
  commandType st = Some ty ->
  ~ In RBRACE body -> ~ In BACKSLASH body ->
  (List.length (body ++ RBRACE :: rest) <= fuel)%nat ->
  scan fuel st (body ++ RBRACE :: rest) =
    (span <- TextSpan.new (text st ++ body) ;;
     scan fuel {| elements := elements st ++ [Command (CommandSpan.Build ty span)];
                  commandType := None;
                  text := [] |} rest).
Proof.
  induction body as [|c body IH]; intros fuel st rest ty Hty Hclose Hesc Hlen;
    (destruct fuel as [|fuel]; [simpl in Hlen; lia|]); cbn [app];
    rewrite scan_cons; unfold scanRound; rewrite Hty.
  - change (RBRACE =? RBRACE) with true. cbv iota. rewrite app_nil_r.
    destruct (TextSpan.new (text st)); [|reflexivity]. cbn [bind].
    apply scan_fuel; simpl in Hlen; lia.
  - destruct (c =? RBRACE) eqn:E.
    { apply N.eqb_eq in E. exfalso. apply Hclose. now left. }
    destruct (c =? BACKSLASH) eqn:E'.
    { apply N.eqb_eq in E'. exfalso. apply Hesc. now left. }
    cbn [andb].
    assert (Hnext : scan fuel (appendText st c) (body ++ RBRACE :: rest) =
                    (span <- TextSpan.new (text st ++ c :: body) ;;
                     scan (S fuel)
                       {| elements := elements st ++ [Command (CommandSpan.Build ty span)];
                          commandType := None;
                          text := [] |} rest)).
    { rewrite (IH fuel (appendText st c) rest ty); trivial.
      - cbn [appendText text elements]. rewrite <- app_assoc. cbn [app].
        apply bind_ext. intros span. apply scan_fuel.
        + simpl in Hlen. rewrite length_app in Hlen. simpl in Hlen. lia.
        + simpl in Hlen. rewrite length_app in Hlen. simpl in Hlen. lia.
      - intros H. apply Hclose. now right.
      - intros H. apply Hesc. now right.
      - simpl in Hlen. lia. }
    destruct (body ++ RBRACE :: rest); exact Hnext.
Qed.

(** A line that begins with an opening brace and the first alias of a
    type. *)
Lemma parseInlineElementes_open (ty : CommandSpan.Type_) (d : char) (tail : jsstring) :
  isCommandChar d = false ->
  parseInlineElementes (LBRACE :: CommandSpan.canonical ty ++ d :: tail) =
    (st <- scan (List.length (CommandSpan.canonical ty ++ d :: tail))
             {| elements := []; commandType := Some ty; text := [] |}
             (JsString.dropWhile JsString.isWhiteSpace (d :: tail)) ;;
     match commandType st with
     | Some _ => Throw (Exception UNCLOSED_COMMAND)
     | None => st <- pushTextSpan st ;; Ok (elements st)
     end).
Proof.
  intros Hd.
  pose proof (parseInlineElementes_after_plain []
                (CommandSpan.canonical ty ++ d :: tail) (fun H => H)) as Hopen.
  cbn [app] in Hopen. rewrite Hopen. clear Hopen.
  rewrite scan_cons. unfold scanRound. cbn [commandType].
  change (LBRACE =? LBRACE) with true. cbv iota.
  change (pushTextSpan {| elements := []; commandType := None; text := [] |})
    with (Ok {| elements := []; commandType := None; text := [] |}).
  cbn [bind elements text].
  destruct (canonical_token ty) as [Htok [Hne Hknown]].
  destruct (takeWhile_app_all isCommandChar _ d tail Htok Hd) as [-> ->].
  now rewrite Hne, Hknown.
Qed.

(** X8: a command span whose content is a stored text that does not begin
    with white space and holds neither a closing brace nor a backslash, or is
    one of the three code units the serializer escapes, is read back from its
    serialization as the same single span. *)
Theorem parse_CommandSpan_toString (ty : CommandSpan.Type_) (content : jsstring) :
  TextSpan.new content = Ok (TextSpan.Build content) ->
  (forall c rest, content = c :: rest -> JsString.isWhiteSpace c = false) ->
  (~ In RBRACE content /\ ~ In BACKSLASH content)
  \/ (exists c, content = [c] /\ isSpecial c = true) ->
  parseInlineElementes (CommandSpan.toString (CommandSpan.Build ty (TextSpan.Build content)))
  = Ok [Command (CommandSpan.Build ty (TextSpan.Build content))].
Proof.
  intros Hstored Hfirst Hcontent.
  assert (Hspecial : forall c, isSpecial c = true ->
            parseInlineElementes
              (CommandSpan.toString (CommandSpan.Build ty (TextSpan.Build [c])))
            = Ok [Command (CommandSpan.Build ty (TextSpan.Build [c]))]).
  { intros c Hc. unfold isSpecial in Hc.
    apply orb_true_iff in Hc as [Hc | Hc]; [apply orb_true_iff in Hc as [Hc | Hc]|];
      apply N.eqb_eq in Hc; subst c; now destruct ty. }
  destruct Hcontent as [[Hclose Hesc] | [c [-> Hc]]]; [|now apply Hspecial].
  rewrite CommandSpan_toString_cases.
  (* what is left once the single escaped code unit is set apart *)
  assert (Hplain : forall c rest,
            content = c :: rest ->
            parseInlineElementes
              (LBRACE :: CommandSpan.canonical ty ++ SPACE :: content ++ [RBRACE])
            = Ok [Command (CommandSpan.Build ty (TextSpan.Build content))]).
  { intros c rest Hc.
    rewrite parseInlineElementes_open by reflexivity.
    cbn [JsString.dropWhile]. change (JsString.isWhiteSpace SPACE) with true. cbv iota.
    rewrite Hc. cbn [app JsString.dropWhile]. rewrite (Hfirst c rest Hc).
    change (c :: rest ++ [RBRACE]) with ((c :: rest) ++ [RBRACE]). rewrite <- Hc.
    rewrite (scan_body content _ _ [] ty); trivial.
    - cbn [text app]. rewrite Hstored. cbn [bind]. now rewrite scan_nil.
    - repeat (rewrite length_app || cbn [List.length]); lia. }
  destruct content as [|c [|c' r]].
  - rewrite parseInlineElementes_open by reflexivity.
    change (JsString.dropWhile JsString.isWhiteSpace [RBRACE]) with ([] ++ [RBRACE]).
    rewrite (scan_body [] _ _ [] ty); trivial.
    + cbn [text app]. rewrite Hstored. cbn [bind]. now rewrite scan_nil.
    + repeat (rewrite length_app || cbn [List.length]); lia.
  - destruct (isSpecial c) eqn:Hc.
    + rewrite <- (Hspecial c Hc). now rewrite CommandSpan_toString_cases, Hc.
    + now apply (Hplain c []).
  - now apply (Hplain c (c' :: r)).
Qed.

Lemma parse_CommandSpan_toString_witness :
  parseInlineElementes
    (CommandSpan.toString
       (CommandSpan.Build CommandSpan.MESSAGE (TextSpan.Build (js "an {open} brace"))))
  = Ok [Command (CommandSpan.Build CommandSpan.MESSAGE (TextSpan.Build (js "an {open")));
        Text (TextSpan.Build (js " brace}"))]
  /\ parseInlineElementes
       (CommandSpan.toString
          (CommandSpan.Build CommandSpan.MESSAGE (TextSpan.Build (js "an {open brace"))))
     = Ok [Command (CommandSpan.Build CommandSpan.MESSAGE (TextSpan.Build (js "an {open brace")))].
Proof.
  split; [reflexivity|].
  apply parse_CommandSpan_toString.
  - reflexivity.
  - intros c rest H. injection H as <- _. reflexivity.
  - left. split; simpl; intuition discriminate.
Defined.

(** ** What the optimizer keeps *)

Lemma mergedRev_app (a b : list DescriptionInlineElement) :
  mergedRev (a ++ b) = true -> mergedRev b = true.
Proof.
  induction a as [|x a IH]; [easy|]. cbn [app mergedRev].
  destruct x as [span|span]; [|exact IH].
  intros H. apply andb_true_iff in H as [_ H]. now apply IH.
Qed.

Lemma merged_prefix (xs ys : list DescriptionInlineElement) :
  merged (xs ++ ys) = true -> merged xs = true.
Proof. unfold merged. rewrite rev_app_distr. apply mergedRev_app. Qed.

Lemma keepRunHeads_nil (s : jsstring) : keepRunHeads false s = [] -> s = [].
Proof. destruct s as [|c s]; [easy|]. simpl. now destruct (JsString.isWhiteSpace c). Qed.

Lemma TextSpan_new_nonempty (s : jsstring) (span : TextSpan.t) :
  TextSpan.new s = Ok span -> s <> [] -> isEmptySpan span = false.
Proof.
  rewrite TextSpan_new_cases. destruct (JsString.includes s [LF; LF]); [discriminate|].
  intros H Hs. injection H as <-. unfold isEmptySpan. cbn [TextSpan.text].
  destruct (keepRunHeads false s) eqn:E; [|reflexivity].
  now apply keepRunHeads_nil in E.
Qed.

Lemma isEmptySpan_false (span : TextSpan.t) :
  isEmptySpan span = false -> TextSpan.text span <> [].
Proof. unfold isEmptySpan. now destruct (TextSpan.text span). Qed.

Lemma mergeSpans_nonempty (last span merged' : TextSpan.t) :
  mergeSpans last span = Ok merged' -> isEmptySpan span = false ->
  isEmptySpan merged' = false.
Proof.
  intros H Hspan. apply (TextSpan_new_nonempty _ _ H).
  apply isEmptySpan_false in Hspan. now destruct (TextSpan.text last).
Qed.

(** One round of the optimizer keeps its array merged. *)
Lemma optimizeStep_merged acc element acc' :
  optimizeStep acc element = Ok acc' -> merged acc = true -> merged acc' = true.
Proof.
  destruct acc as [|last acc _] using rev_ind.
  - intros H _. injection H as <-. unfold merged. now destruct element.
  - unfold merged. rewrite rev_app_distr. cbn [rev app].
    destruct last as [last|cmd].
    + rewrite optimizeStep_after_text. destruct element as [span|span].
      * destruct (isEmptySpan span) eqn:Hempty.
        -- intros H. injection H as <-. now rewrite rev_app_distr.
        -- destruct (mergeSpans last span) as [merged'|e] eqn:Hmerge; [|discriminate].
           cbn [bind]. intros H. injection H as <-. rewrite rev_app_distr.
           cbn [rev app mergedRev].
           rewrite (mergeSpans_nonempty _ _ _ Hmerge Hempty).
           destruct (rev acc) as [|[?|?] ?]; trivial.
           now destruct (isEmptySpan last).
      * intros H. injection H as <-. rewrite !rev_app_distr. cbn [rev app mergedRev].
        trivial.
    + rewrite optimizeStep_after_command. destruct element as [span|span].
      * destruct (isEmptySpan span) eqn:Hempty; intros H; injection H as <-;
          rewrite ?rev_app_distr; cbn [rev app mergedRev]; trivial.
        now rewrite Hempty.
      * intros H. injection H as <-. rewrite !rev_app_distr. now cbn [rev app mergedRev].
Qed.

Lemma forEach_optimizeStep_merged elements : forall acc out,
  forEach optimizeStep elements acc = Ok out -> merged acc = true -> merged out = true.
Proof.
  induction elements as [|element elements IH]; intros acc out H Hacc.
  - now injection H as <-.
  - cbn [forEach] in H.
    destruct (optimizeStep acc element) as [acc'|e] eqn:Hstep; [|discriminate].
    cbn [bind] in H. eapply IH; eauto using optimizeStep_merged.
Qed.

(** On a merged sequence every round of the optimizer appends the element it
    is given. *)
Lemma optimizeStep_push acc element :
  merged (acc ++ [element]) = true -> optimizeStep acc element = Ok (acc ++ [element]).
Proof.
  unfold merged. rewrite rev_app_distr. cbn [rev app].
  destruct acc as [|last acc _] using rev_ind; [reflexivity|].
  rewrite rev_app_distr. cbn [rev app].
  destruct last as [last|cmd].
  - rewrite optimizeStep_after_text.
    destruct element as [span|span]; [discriminate | reflexivity].
  - rewrite optimizeStep_after_command.
    destruct element as [span|span]; [|reflexivity].
    cbn [mergedRev]. now destruct (isEmptySpan span).
Qed.

Lemma forEach_optimizeStep_fixed elements : forall acc,
  merged (acc ++ elements) = true ->
  forEach optimizeStep elements acc = Ok (acc ++ elements).
Proof.
  induction elements as [|element elements IH]; intros acc H.
  - now rewrite app_nil_r.
  - cbn [forEach].
    replace (acc ++ element :: elements) with ((acc ++ [element]) ++ elements) in *
      by now rewrite <- app_assoc.
    rewrite optimizeStep_push by (eapply merged_prefix; eauto).
    cbn [bind]. now apply IH.
Qed.

Lemma optimizeElements_fixed elements :
  merged elements = true -> optimizeElements elements = Ok elements.
Proof. intros H. unfold optimizeElements. now rewrite forEach_optimizeStep_fixed. Qed.

(** X9: what the optimizer returns never has two text spans side by side nor
    an empty text span behind a command span, and optimizing it again returns
    it unchanged. *)
Theorem optimizeElements_idempotent (elements out : list DescriptionInlineElement) :
  optimizeElements elements = Ok out ->
  (forall before x y rest, out <> before ++ Text x :: Text y :: rest)
  /\ (forall before cmd x rest,
        out = before ++ Command cmd :: Text x :: rest -> TextSpan.text x <> [])
  /\ optimizeElements out = Ok out.
Proof.
  intros H.
  assert (Hm : merged out = true) by (eapply forEach_optimizeStep_merged; eauto).
  split; [|split].
  - intros before x y rest ->. unfold merged in Hm.
    rewrite rev_app_distr in Hm. cbn [rev] in Hm. rewrite <- !app_assoc in Hm.
    apply mergedRev_app in Hm. discriminate.
  - intros before cmd x rest ->. unfold merged in Hm.
    rewrite rev_app_distr in Hm. cbn [rev] in Hm. rewrite <- !app_assoc in Hm.
    apply mergedRev_app in Hm. cbn [app mergedRev] in Hm.
    apply isEmptySpan_false. now destruct (isEmptySpan x).
  - now apply optimizeElements_fixed.
Qed.

Lemma optimizeElements_idempotent_witness :
  let cmd := Command (CommandSpan.Build CommandSpan.CODE (TextSpan.Build (js "x"))) in
  let out := [Text (TextSpan.Build (js "a b")); cmd; Text (TextSpan.Build (js "c"))] in
  optimizeElements
    [Text (TextSpan.Build (js "a ")); Text (TextSpan.Build (js " b")); cmd;
     Text (TextSpan.Build (js "")); Text (TextSpan.Build (js "c"))] = Ok out
  /\ optimizeElements out = Ok out.
Proof.
  split; [reflexivity|].
  exact (proj2 (proj2 (optimizeElements_idempotent
                         [Text (TextSpan.Build (js "a ")); Text (TextSpan.Build (js " b"));
                          Command (CommandSpan.Build CommandSpan.CODE (TextSpan.Build (js "x")));
                          Text (TextSpan.Build (js "")); Text (TextSpan.Build (js "c"))]
                         _ eq_refl))).
Defined.

Lemma commandsOf_app (xs ys : list DescriptionInlineElement) :
  commandsOf (xs ++ ys) = commandsOf xs ++ commandsOf ys.
Proof.
  induction xs as [|[span|span] xs IH]; cbn [app commandsOf]; [reflexivity|exact IH|].
  now rewrite IH.
Qed.

Lemma optimizeStep_commandsOf acc element acc' :
  optimizeStep acc element = Ok acc' ->
  commandsOf acc' = commandsOf acc ++ commandsOf [element].
Proof.
  destruct acc as [|last acc _] using rev_ind.
  - intros H. now injection H as <-.
  - destruct last as [last|cmd].
    + rewrite optimizeStep_after_text. destruct element as [span|span].
      * destruct (isEmptySpan span).
        -- intros H. injection H as <-. cbn [commandsOf]. now rewrite app_nil_r.
        -- destruct (mergeSpans last span); [|discriminate]. cbn [bind].
           intros H. injection H as <-. rewrite !commandsOf_app. cbn [commandsOf].
           now rewrite !app_nil_r.
      * intros H. injection H as <-. now rewrite (commandsOf_app (acc ++ _)).
    + rewrite optimizeStep_after_command. destruct element as [span|span].
      * destruct (isEmptySpan span); intros H; injection H as <-;
          [cbn [commandsOf]; now rewrite app_nil_r | now rewrite (commandsOf_app (acc ++ _))].
      * intros H. injection H as <-. now rewrite (commandsOf_app (acc ++ _)).
Qed.

(** X10: the optimizer returns the command spans it was given, all of them,
    unchanged and in their order. *)
Theorem optimizeElements_commandsOf (elements out : list DescriptionInlineElement) :
  optimizeElements elements = Ok out -> commandsOf out = commandsOf elements.
Proof.
  unfold optimizeElements. change (commandsOf elements) with (commandsOf [] ++ commandsOf elements).
  generalize (@nil DescriptionInlineElement) as acc.
  revert out; induction elements as [|element elements IH]; intros out acc H.
  - injection H as <-. now rewrite app_nil_r.
  - cbn [forEach] in H.
    destruct (optimizeStep acc element) as [acc'|e] eqn:Hstep; [|discriminate].
    cbn [bind] in H. rewrite (IH _ _ H), (optimizeStep_commandsOf _ _ _ Hstep).
    rewrite <- app_assoc. f_equal. now destruct element.
Qed.

Lemma optimizeElements_commandsOf_witness :
  let c1 := CommandSpan.Build CommandSpan.CODE (TextSpan.Build (js "x")) in
  let c2 := CommandSpan.Build CommandSpan.EMPHASIS (TextSpan.Build (js "")) in
  commandsOf [Text (TextSpan.Build (js "a b")); Command c1; Command c2;
              Text (TextSpan.Build (js "c"))]
  = commandsOf [Text (TextSpan.Build (js "a ")); Text (TextSpan.Build (js " b")); Command c1;
                Text (TextSpan.Build (js "")); Command c2; Text (TextSpan.Build (js "c"))].
Proof.
  exact (optimizeElements_commandsOf
           [Text (TextSpan.Build (js "a ")); Text (TextSpan.Build (js " b"));
            Command (CommandSpan.Build CommandSpan.CODE (TextSpan.Build (js "x")));
            Text (TextSpan.Build (js ""));
            Command (CommandSpan.Build CommandSpan.EMPHASIS (TextSpan.Build (js "")));
            Text (TextSpan.Build (js "c"))] _ eq_refl).
Defined.

(** ** What the inline parser returns *)

Lemma merged_snoc_command elements span :
  merged (elements ++ [Command span]) = merged elements.
Proof. unfold merged. now rewrite rev_app_distr. Qed.

Lemma endsWithText_snoc_command elements span :
  endsWithText (elements ++ [Command span]) = false.
Proof. unfold endsWithText. now rewrite rev_app_distr. Qed.

(** Flushing the text buffer behind a command span, or at the start of the
    line, keeps the elements merged. *)
Lemma pushTextSpan_merged st st' :
  pushTextSpan st = Ok st' ->
  merged (elements st) = true -> endsWithText (elements st) = false ->
  merged (elements st') = true /\ commandType st' = commandType st.
Proof.
  unfold pushTextSpan. destruct (JsString.eqb (text st) []) eqn:E; cbn [negb].
  - intros H. now injection H as <-.
  - destruct (TextSpan.new (text st)) as [span|e] eqn:Hnew; [|discriminate].
    cbn [bind]. intros H Hm Hend. injection H as <-. cbn [elements commandType].
    split; [|reflexivity].
    assert (Hne : isEmptySpan span = false).
    { apply (TextSpan_new_nonempty _ _ Hnew). intros Ht. rewrite Ht in E. discriminate. }
    unfold merged, endsWithText in *. rewrite rev_app_distr. cbn [rev app mergedRev].
    rewrite Hm, Hne. now destruct (rev (elements st)) as [|[?|?] ?].
Qed.

(** The loop keeps the elements merged, and outside a command their last is
    no text span. *)
Lemma scan_merged fuel : forall st rest st',
  scan fuel st rest = Ok st' ->
  merged (elements st) = true ->
  (commandType st = None -> endsWithText (elements st) = false) ->
  merged (elements st') = true
  /\ (commandType st' = None -> endsWithText (elements st') = false).
Proof.
  induction fuel as [|fuel IH]; intros st rest st' H Hm Hend;
    [injection H as <-; now split|].
  destruct rest as [|c next]; [injection H as <-; now split|].
  rewrite scan_cons in H. unfold scanRound in H.
  destruct (commandType st) as [ty|] eqn:Hty.
  - destruct (c =? RBRACE).
    + destruct (TextSpan.new (text st)) as [span|e]; [|discriminate].
      cbn [bind] in H. eapply IH; [exact H| |]; cbn [elements commandType].
      * now rewrite merged_snoc_command.
      * intros _. apply endsWithText_snoc_command.
    + assert (Hin : forall c', commandType (appendText st c') = None ->
                               endsWithText (elements (appendText st c')) = false).
      { intros c' Hc'. cbn [appendText commandType] in Hc'. congruence. }
      destruct next as [|escChar next']; [|destruct ((c =? BACKSLASH) && _)];
        (eapply IH; [exact H|exact Hm|apply Hin]).
  - destruct (c =? LBRACE).
    + destruct (pushTextSpan st) as [st1|e] eqn:Hpush; [|discriminate].
      cbn [bind] in H.
      destruct (pushTextSpan_merged _ _ Hpush Hm (Hend eq_refl)) as [Hm1 _].
      destruct (JsString.eqb _ []); [discriminate|].
      destruct (CommandSpan.fromCommand _); [|discriminate].
      eapply IH; [exact H|exact Hm1|]. cbn [commandType]. discriminate.
    + eapply IH; [exact H|exact Hm|]. cbn [appendText commandType elements].
      intros _. now apply Hend.
Qed.

(** X11: the elements the inline parser returns for a line are merged
    already: the optimizer returns them unchanged. *)
Theorem parseInlineElementes_optimized (str : jsstring)
    (parsed : list DescriptionInlineElement) :
  parseInlineElementes str = Ok parsed ->
  optimizeElements parsed = Ok parsed.
Proof.
  unfold parseInlineElementes. intros H.
  destruct (scan _ _ str) as [st|e] eqn:Hscan; [|discriminate]. cbn [bind] in H.
  destruct (commandType st) eqn:Hty; [discriminate|].
  destruct (pushTextSpan st) as [st'|e] eqn:Hpush; [|discriminate].
  cbn [bind] in H. injection H as <-.
  apply scan_merged in Hscan as [Hm Hend]; [|reflexivity|reflexivity].
  apply optimizeElements_fixed.
  now apply (pushTextSpan_merged _ _ Hpush Hm (Hend Hty)).
Qed.

Lemma parseInlineElementes_optimized_witness :
  let parsed :=
    [Text (TextSpan.Build (js "a "));
     Command (CommandSpan.Build CommandSpan.EMPHASIS (TextSpan.Build (js "b")));
     Command (CommandSpan.Build CommandSpan.CODE (TextSpan.Build (js "")));
     Text (TextSpan.Build (js " d"))] in
  parseInlineElementes (js "a {e b}{c} d") = Ok parsed
  /\ optimizeElements parsed = Ok parsed.
Proof.
  split; [reflexivity|].
  exact (parseInlineElementes_optimized (js "a {e b}{c} d") _ eq_refl).
Defined.

(** ** The accumulators of the block parser *)

(** The line break marker is a text span the constructor accepts. *)
Ltac marker :=
  change (TextSpan.new (js "\n")) with (Ok (TextSpan.Build (js "\n"))) in *;
  cbn [bind] in *.

Lemma pushToLastItem_Ok items xs items' :
  pushToLastItem items xs = Ok items' -> exists before item, items' = before ++ [item].
Proof.
  unfold pushToLastItem. destruct (lastOf items); [|discriminate].
  intros H. injection H as <-. eauto.
Qed.

Lemma pushParagraphElements_Ok st st' :
  pushParagraphElements st = Ok st' ->
  paragraphElements st' = None /\ listItems st' = listItems st
  /\ (blocks st' = blocks st \/ exists block, blocks st' = blocks st ++ [block]).
Proof.
  unfold pushParagraphElements. destruct (paragraphElements st) eqn:E.
  - destruct (optimizeElements l); [|discriminate]. cbn [bind].
    intros H. injection H as <-. cbn. eauto.
  - intros H. injection H as <-. auto.
Qed.

Lemma pushListItems_Ok st st' :
  pushListItems st = Ok st' ->
  listItems st' = None /\ paragraphElements st' = paragraphElements st
  /\ (blocks st' = blocks st \/ exists block, blocks st' = blocks st ++ [block]).
Proof.
  unfold pushListItems. destruct (listItems st) eqn:E.
  - destruct (mapOptimize l); [|discriminate]. cbn [bind].
    intros H. injection H as <-. cbn. eauto.
  - intros H. injection H as <-. auto.
Qed.

Lemma paragraphLine_Ok st line st' :
  paragraphLine st line = Ok st' ->
  (exists elements, paragraphElements st' = Some elements) /\ listItems st' = None
  /\ (blocks st' = blocks st \/ exists block, blocks st' = blocks st ++ [block]).
Proof.
  unfold paragraphLine.
  destruct (pushListItems st) as [st1|e] eqn:Hpush; [|discriminate]. cbn [bind].
  apply pushListItems_Ok in Hpush as [Hlist [_ Hblocks]].
  marker. destruct (_ && _); cbn [bind];
    (destruct (parseInlineElementes line); [|discriminate]); cbn [bind];
    intros H; injection H as <-; cbn; eauto.
Qed.

(** X12: after a line is read exactly one of the two accumulators is open,
    provided at most one was open before: behind a list line or a
    continuation line the list, which holds at least one item, and behind any
    other line the paragraph.  The line adds at most one block to the
    output. *)
Theorem parseLine_one_open (st : BlockState) (line : jsstring) (st' : BlockState) :
  parseLine st line = Ok st' ->
  paragraphElements st = None \/ listItems st = None ->
  ((exists items item, listItems st' = Some (items ++ [item]))
   /\ paragraphElements st' = None
   \/ (exists elements, paragraphElements st' = Some elements)
      /\ listItems st' = None)
  /\ (blocks st' = blocks st \/ exists block, blocks st' = blocks st ++ [block]).
Proof.
  unfold parseLine. intros H Hone.
  destruct (JsString.startsWith line (js "* ")).
  - destruct (pushParagraphElements st) as [st1|e] eqn:Hpush; [|discriminate].
    cbn [bind] in H.
    apply pushParagraphElements_Ok in Hpush as [Hpar [_ Hblocks]].
    destruct (parseInlineElementes _); [|discriminate]. cbn [bind] in H.
    rewrite pushToLastItem_app in H. cbn [bind] in H. injection H as <-. cbn.
    split; [left; eauto|exact Hblocks].
  - destruct (listItems st) as [items|] eqn:Hitems.
    + destruct (JsString.startsWith line (js "  ")).
      * destruct (lastOf items); [|discriminate].
        marker. destruct (if _ && _ then _ else _) as [items1|e]; [|discriminate].
        cbn [bind] in H.
        destruct (parseInlineElementes _); [|discriminate]. cbn [bind] in H.
        destruct (pushToLastItem items1 _) as [items2|e] eqn:Hpush; [|discriminate].
        cbn [bind] in H. injection H as <-. cbn.
        apply pushToLastItem_Ok in Hpush as [before [item ->]].
        destruct Hone as [Hone | Hone]; [|discriminate].
        split; [left; eauto|now left].
      * apply paragraphLine_Ok in H as [Hpar [Hlist Hblocks]]. auto.
    + apply paragraphLine_Ok in H as [Hpar [Hlist Hblocks]]. auto.
Qed.

Lemma parseLine_one_open_witness :
  let st := {| blocks := [];
               paragraphElements := None;
               listItems := Some [[Text (TextSpan.Build (js "a"))]] |} in
  let st' := {| blocks := [List [[Text (TextSpan.Build (js "a"))]]];
                paragraphElements := Some [Text (TextSpan.Build (js "b"))];
                listItems := None |} in
  parseLine st (js "b") = Ok st'
  /\ ((exists items item, listItems st' = Some (items ++ [item]))
      /\ paragraphElements st' = None
      \/ (exists elements, paragraphElements st' = Some elements)
         /\ listItems st' = None).
Proof.
  split; [reflexivity|].
  exact (proj1 (parseLine_one_open
                  {| blocks := []; paragraphElements := None;
                     listItems := Some [[Text (TextSpan.Build (js "a"))]] |}
                  (js "b") _ eq_refl (or_introl eq_refl))).
Defined.

(** ** The errors of the parser *)

Lemma TextSpan_new_throws (s : jsstring) (e : Thrown) :
  TextSpan.new s = Throw e -> isParseError e.
Proof.
  rewrite TextSpan_new_cases. destruct (JsString.includes s [LF; LF]); [|discriminate].
  intros H. injection H as <-. now left.
Qed.

Lemma parseInlineElementes_throws (str : jsstring) (e : Thrown) :
  parseInlineElementes str = Throw e -> isParseError e.
Proof.
  unfold parseInlineElementes.
  destruct (scan _ _ str) as [st|e'] eqn:Hscan; cbn [bind].
  - destruct (commandType st).
    + intros H. injection H as <-. right; right; now left.
    + unfold pushTextSpan. destruct (negb _); cbn [bind]; [|discriminate].
      destruct (TextSpan.new (text st)) eqn:Hnew; cbn [bind]; [discriminate|].
      intros H. injection H as <-. eapply TextSpan_new_throws; eauto.
  - intros H. injection H as <-. apply scan_throws in Hscan.
    destruct Hscan as [-> | [[commandStr ->] | ->]].
    + right; now left.
    + right; right; right. eauto.
    + now left.
Qed.

Lemma optimizeElements_throws elements (e : Thrown) :
  optimizeElements elements = Throw e -> isParseError e.
Proof.
  unfold optimizeElements. generalize (@nil DescriptionInlineElement) as acc.
  induction elements as [|element elements IH]; intros acc H; [discriminate|].
  cbn [forEach] in H.
  destruct (optimizeStep acc element) as [acc'|e'] eqn:Hstep; cbn [bind] in H; [eauto|].
  injection H as <-. unfold optimizeStep in Hstep.
  destruct (lastOf acc) as [[lastSpan|?]|]; try discriminate;
    destruct element as [elementSpan|?]; try discriminate.
  - destruct (negb _); [|discriminate].
    destruct (TextSpan.new _) eqn:Hnew; [discriminate|]. cbn [bind] in Hstep.
    injection Hstep as <-. eapply TextSpan_new_throws; eauto.
  - destruct (negb _); discriminate.
Qed.

Lemma mapOptimize_throws items (e : Thrown) :
  mapOptimize items = Throw e -> isParseError e.
Proof.
  induction items as [|item items IH]; [discriminate|]. cbn [mapOptimize].
  destruct (optimizeElements item) eqn:Hitem; cbn [bind].
  - destruct (mapOptimize items); cbn [bind]; [discriminate|].
    intros H. injection H as <-. now apply IH.
  - intros H. injection H as <-. eapply optimizeElements_throws; eauto.
Qed.

Lemma pushParagraphElements_throws st (e : Thrown) :
  pushParagraphElements st = Throw e -> isParseError e.
Proof.
  unfold pushParagraphElements. destruct (paragraphElements st); [|discriminate].
  destruct (optimizeElements l) eqn:Hopt; cbn [bind]; [discriminate|].
  intros H. injection H as <-. eapply optimizeElements_throws; eauto.
Qed.

Lemma pushListItems_throws st (e : Thrown) :
  pushListItems st = Throw e -> isParseError e.
Proof.
  unfold pushListItems. destruct (listItems st); [|discriminate].
  destruct (mapOptimize l) eqn:Hopt; cbn [bind]; [discriminate|].
  intros H. injection H as <-. eapply mapOptimize_throws; eauto.
Qed.

Lemma parseLine_listItems st line st' :
  parseLine st line = Ok st' -> listHoldsItem st'.
Proof.
  unfold parseLine, listHoldsItem. intros H items' Hitems'.
  destruct (JsString.startsWith line (js "* ")).
  - destruct (pushParagraphElements st) as [st1|e]; [|discriminate]. cbn [bind] in H.
    destruct (parseInlineElementes _); [|discriminate]. cbn [bind] in H.
    rewrite pushToLastItem_app in H. cbn [bind] in H. injection H as <-.
    cbn in Hitems'. injection Hitems' as <-. eauto.
  - assert (Hpar : paragraphLine st line = Ok st' -> False).
    { intros Hp. apply paragraphLine_Ok in Hp as [_ [Hnone _]]. congruence. }
    destruct (listItems st) as [items|]; [|now apply Hpar in H].
    destruct (JsString.startsWith line (js "  ")); [|now apply Hpar in H].
    destruct (lastOf items); [|discriminate].
    marker. destruct (if _ && _ then _ else _) as [items1|e]; [|discriminate].
    cbn [bind] in H.
    destruct (parseInlineElementes _); [|discriminate]. cbn [bind] in H.
    destruct (pushToLastItem items1 _) as [items2|e] eqn:Hpush; [|discriminate].
    cbn [bind] in H. injection H as <-. cbn in Hitems'. injection Hitems' as <-.
    eapply pushToLastItem_Ok; eauto.
Qed.

Lemma paragraphLine_throws st line (e : Thrown) :
  paragraphLine st line = Throw e -> isParseError e.
Proof.
  unfold paragraphLine.
  destruct (pushListItems st) as [st1|e'] eqn:Hpush; cbn [bind].
  - marker. destruct (_ && _); cbn [bind];
      (destruct (parseInlineElementes line) eqn:Hparse; cbn [bind]; [discriminate|];
       intros H; injection H as <-; eapply parseInlineElementes_throws; eauto).
  - intros H. injection H as <-. eapply pushListItems_throws; eauto.
Qed.

(** With an item in the open list, a line throws nothing but the errors of
    the parser. *)
Lemma parseLine_throws st line (e : Thrown) :
  listHoldsItem st -> parseLine st line = Throw e -> isParseError e.
Proof.
  unfold parseLine. intros Hst H.
  destruct (JsString.startsWith line (js "* ")).
  - destruct (pushParagraphElements st) as [st1|e'] eqn:Hpush; cbn [bind] in H.
    + destruct (parseInlineElementes _) eqn:Hparse; cbn [bind] in H.
      * rewrite pushToLastItem_app in H. discriminate.
      * injection H as <-. eapply parseInlineElementes_throws; eauto.
    + injection H as <-. eapply pushParagraphElements_throws; eauto.
  - destruct (listItems st) as [items|] eqn:Hitems;
      [|eapply paragraphLine_throws; eauto].
    destruct (JsString.startsWith line (js "  "));
      [|eapply paragraphLine_throws; eauto].
    destruct (Hst items Hitems) as [before [item ->]].
    rewrite lastOf_app in H. marker. rewrite pushToLastItem_app in H.
    destruct (_ && _); cbn [bind] in H;
      (destruct (parseInlineElementes _) eqn:Hparse; cbn [bind] in H;
       [rewrite pushToLastItem_app in H; discriminate
       |injection H as <-; eapply parseInlineElementes_throws; eauto]).
Qed.

Lemma forEach_parseLine_throws lines : forall st (e : Thrown),
  listHoldsItem st -> forEach parseLine lines st = Throw e -> isParseError e.
Proof.
  induction lines as [|line lines IH]; intros st e Hst H; [discriminate|].
  cbn [forEach] in H. destruct (parseLine st line) as [st'|e'] eqn:Hline; cbn [bind] in H.
  - apply (IH st'); [eapply parseLine_listItems; eauto | exact H].
  - injection H as <-. eapply parseLine_throws; eauto.
Qed.

Lemma parseBlock_throws blocks0 block (e : Thrown) :
  parseBlock blocks0 block = Throw e -> isParseError e.
Proof.
  unfold parseBlock.
  destruct (forEach parseLine _ _) as [st|e'] eqn:Hlines; cbn [bind].
  - destruct (pushParagraphElements st) as [st1|e'] eqn:Hpar; cbn [bind].
    + destruct (pushListItems st1) as [st2|e'] eqn:Hlist; cbn [bind]; [discriminate|].
      intros H. injection H as <-. eapply pushListItems_throws; eauto.
    + intros H. injection H as <-. eapply pushParagraphElements_throws; eauto.
  - intros H. injection H as <-. eapply forEach_parseLine_throws; eauto.
    intros items Hitems. discriminate.
Qed.

(** X13: when parsing a description fails, it fails with one of the four
    exceptions of the parser: "multiple line breaks", "braces without
    command", "unclosed command" or "unknown command" with a token; no
    [TypeError] comes out of the accumulators. *)
Theorem parseDescription_throws (str : jsstring) (e : Thrown) :
  parseDescription str = Throw e ->
  isParseError e /\ e <> TypeError.
Proof.
  intros H. assert (He : isParseError e).
  { unfold parseDescription in H.
    destruct (forEach parseBlock _ _) as [blocks1|e'] eqn:Hblocks; [discriminate|].
    cbn [bind] in H. injection H as <-.
    revert Hblocks. generalize (@nil DescriptionBlockElement) as blocks0.
    generalize (JsString.split
                  (JsString.replace (JsString.trim str) JsString.re_three_line_breaks true
                     (fun _ => js "\n\n")) (js "\n\n")) as chunks.
    induction chunks as [|chunk chunks IH]; intros blocks0 H; [discriminate|].
    cbn [forEach] in H.
    destruct (parseBlock blocks0 chunk) as [blocks1|e''] eqn:Hblock; cbn [bind] in H.
    - eauto.
    - injection H as <-. eapply parseBlock_throws; eauto. }
  split; [exact He|].
  destruct He as [-> | [-> | [-> | [commandStr ->]]]]; discriminate.
Qed.

Lemma parseDescription_throws_witness :
  parseDescription (js "* a\n  \n  b") = Throw (Exception TextSpan.MULTIPLE_LINE_BREAKS)
  /\ isParseError (Exception TextSpan.MULTIPLE_LINE_BREAKS).
Proof.
  split; [reflexivity|].
  exact (proj1 (parseDescription_throws (js "* a\n  \n  b") _ eq_refl)).
Defined.

(** ** Trimming *)

Lemma dropWhile_all (p : char -> bool) (w x : jsstring) :
  forallb p w = true -> JsString.dropWhile p (w ++ x) = JsString.dropWhile p x.
Proof.
  induction w as [|c w IH]; [reflexivity|]. cbn [forallb app JsString.dropWhile].
  intros H. apply andb_true_iff in H as [-> H]. now apply IH.
Qed.

Lemma dropWhile_head (p : char -> bool) (s : jsstring) (c : char) (r : jsstring) :
  JsString.dropWhile p s = c :: r -> p c = false.
Proof.
  induction s as [|x s IH]; [discriminate|]. cbn [JsString.dropWhile].
  destruct (p x) eqn:E; [exact IH|]. intros H. injection H as <- _. exact E.
Qed.

Lemma dropWhile_nil (p : char -> bool) (s : jsstring) :
  JsString.dropWhile p s = [] -> forallb p s = true.
Proof.
  induction s as [|x s IH]; [reflexivity|]. cbn [JsString.dropWhile forallb].
  destruct (p x); [exact IH | discriminate].
Qed.

Lemma dropWhile_app_stop (p : char -> bool) (s w : jsstring) (c : char) (t : jsstring) :
  JsString.dropWhile p s = c :: t -> JsString.dropWhile p (s ++ w) = (c :: t) ++ w.
Proof.
  induction s as [|x s IH]; [discriminate|]. cbn [JsString.dropWhile app].
  destruct (p x); [exact IH|]. intros H. now injection H as -> ->.
Qed.

Lemma dropWhile_fixed (p : char -> bool) (c : char) (r : jsstring) :
  p c = false -> JsString.dropWhile p (c :: r) = c :: r.
Proof. intros H. cbn [JsString.dropWhile]. now rewrite H. Qed.

Lemma forallb_rev (p : char -> bool) (w : jsstring) :
  forallb p w = true -> forallb p (rev w) = true.
Proof.
  intros H. rewrite forallb_forall in *. intros x Hx. apply H. now apply in_rev.
Qed.

(** White space around a string is trimmed away. *)
Lemma trim_app (w1 s w2 : jsstring) :
  forallb JsString.isWhiteSpace w1 = true ->
  forallb JsString.isWhiteSpace w2 = true ->
  JsString.trim (w1 ++ s ++ w2) = JsString.trim s.
Proof.
  intros H1 H2. unfold JsString.trim, JsString.trimStart, JsString.trimEnd.
  rewrite (dropWhile_all _ w1) by exact H1.
  destruct (JsString.dropWhile JsString.isWhiteSpace s) as [|c t] eqn:E.
  - apply dropWhile_nil in E. rewrite (dropWhile_all _ s) by exact E.
    rewrite <- (app_nil_r w2), (dropWhile_all _ w2) by exact H2. reflexivity.
  - rewrite (dropWhile_app_stop _ _ w2 _ _ E), rev_app_distr.
    now rewrite dropWhile_all by now apply forallb_rev.
Qed.

Lemma trim_head (s : jsstring) (c : char) (r : jsstring) :
  JsString.trim s = c :: r -> JsString.isWhiteSpace c = false.
Proof.
  unfold JsString.trim, JsString.trimStart, JsString.trimEnd.
  destruct (JsString.dropWhile JsString.isWhiteSpace s) as [|c0 t] eqn:E; [discriminate|].
  apply dropWhile_head in E. cbn [rev].
  rewrite dropWhile_app_keep by exact E. rewrite rev_app_distr. cbn [rev app].
  intros H. now injection H as <- _.
Qed.

Lemma trim_last (s : jsstring) (r : jsstring) (c : char) :
  JsString.trim s = r ++ [c] -> JsString.isWhiteSpace c = false.
Proof.
  unfold JsString.trim, JsString.trimEnd. intros H.
  apply (f_equal (@rev char)) in H. rewrite rev_involutive, rev_app_distr in H.
  now apply dropWhile_head in H.
Qed.

Lemma trim_fixed (s : jsstring) : JsString.trim (JsString.trim s) = JsString.trim s.
Proof.
  destruct (JsString.trim s) as [|c r] eqn:E; [reflexivity|].
  pose proof (trim_head _ _ _ E) as Hc. rewrite <- E.
  unfold JsString.trim at 1. unfold JsString.trimStart.
  rewrite E, (dropWhile_fixed _ c r Hc), <- E.
  unfold JsString.trim, JsString.trimEnd. rewrite rev_involutive.
  destruct (JsString.dropWhile JsString.isWhiteSpace
              (rev (JsString.trimStart s))) as [|x t] eqn:E'; [reflexivity|].
  now rewrite (dropWhile_fixed _ x t (dropWhile_head _ _ _ _ E')).
Qed.

(** X14: white space before and behind a description does not change what
    it parses to. *)
Theorem parseDescription_surrounding_whitespace (w1 str w2 : jsstring) :
  forallb JsString.isWhiteSpace w1 = true ->
  forallb JsString.isWhiteSpace w2 = true ->
  parseDescription (w1 ++ str ++ w2) = parseDescription str.
Proof. intros H1 H2. unfold parseDescription. now rewrite trim_app. Qed.

Lemma parseDescription_surrounding_whitespace_witness :
  parseDescription (js "\n \t" ++ js "* a {e b}" ++ js " \n\n\n")
  = parseDescription (js "* a {e b}").
Proof.
  exact (parseDescription_surrounding_whitespace (js "\n \t") (js "* a {e b}") (js " \n\n\n")
           eq_refl eq_refl).
Defined.

(** X15: the text a description is written as neither begins nor ends with
    white space: trimming it changes nothing. *)
Theorem Description_toString_trimmed (d : Description.t) :
  JsString.trim (Description.toString d) = Description.toString d
  /\ (forall c rest, Description.toString d = c :: rest -> JsString.isWhiteSpace c = false)
  /\ (forall before c, Description.toString d = before ++ [c] ->
                       JsString.isWhiteSpace c = false).
Proof.
  unfold Description.toString. split; [apply trim_fixed|].
  split; [intros c rest; apply trim_head | intros before c; apply trim_last].
Qed.

(** X16: a description of nothing but white space, the empty one included,
    parses to one paragraph without elements, which is written as the empty
    string. *)
Theorem parseDescription_blank (str : jsstring) :
  forallb JsString.isWhiteSpace str = true ->
  parseDescription str = Ok (Description.Build [Paragraph []])
  /\ Description.toString (Description.Build [Paragraph []]) = [].
Proof.
  intros H. split; [|reflexivity].
  unfold parseDescription.
  pose proof (trim_app str [] [] H eq_refl) as Ht. rewrite app_nil_r in Ht.
  now rewrite Ht.
Qed.

Lemma parseDescription_blank_witness :
  parseDescription (js " \n\t \n\n") = Ok (Description.Build [Paragraph []]).
Proof. exact (proj1 (parseDescription_blank (js " \n\t \n\n") eq_refl)). Defined.


(** ** Descriptions of one line *)

Lemma In_trim (x : char) (s : jsstring) : In x (JsString.trim s) -> In x s.
Proof.
  unfold JsString.trim, JsString.trimEnd, JsString.trimStart. intros H.
  apply in_rev, In_dropWhile, in_rev in H. now apply In_dropWhile in H.
Qed.

Lemma includes_In (s needle : jsstring) (x : char) :
  In x needle -> ~ In x s -> JsString.includes s needle = false.
Proof.
  intros Hx Hs. destruct (JsString.includes s needle) eqn:E; [|reflexivity].
  apply includes_app in E as [before [rest ->]]. exfalso. apply Hs.
  apply in_or_app. right. apply in_or_app. now left.
Qed.

Lemma includes_cons (c : char) (s needle : jsstring) :
  JsString.includes (c :: s) needle = false ->
  JsString.startsWith (c :: s) needle = false /\ JsString.includes s needle = false.
Proof. cbn [JsString.includes]. intros H. now apply orb_false_iff in H. Qed.

Lemma three_line_breaks (s : jsstring) :
  (3 <= List.length (JsString.takeWhile (N.eqb LF) s))%nat ->
  JsString.startsWith s [LF; LF; LF] = true.
Proof.
  destruct s as [|c1 [|c2 [|c3 s]]]; cbn [JsString.takeWhile];
    try (simpl; lia); try (destruct (LF =? c1); simpl; lia).
  - destruct (LF =? c1); [|simpl; lia]. destruct (LF =? c2); simpl; lia.
  - destruct (LF =? c1) eqn:E1; [|simpl; lia].
    destruct (LF =? c2) eqn:E2; [|simpl; lia].
    destruct (LF =? c3) eqn:E3; [|simpl; lia].
    apply N.eqb_eq in E1, E2, E3. now subst.
Qed.

(** Where no three line breaks stand in a row, the replacement of
    [parseDescription] finds nothing to replace. *)
Lemma replaceFrom_three_line_breaks fuel f : forall atStart (s : jsstring),
  JsString.includes s [LF; LF; LF] = false ->
  JsString.replaceFrom fuel JsString.re_three_line_breaks true f atStart s = s.
Proof.
  induction fuel as [|fuel IH]; intros atStart [|c r] H; try reflexivity.
  apply includes_cons in H as [Hstart Hrest].
  cbn [JsString.replaceFrom]. unfold JsString.re_three_line_breaks at 1.
  destruct (3 <=? _)%nat eqn:E.
  - apply Nat.leb_le, three_line_breaks in E. congruence.
  - now rewrite IH.
Qed.

(** Where the separator does not occur, [split] returns the string whole. *)
Lemma splitFrom_whole (sep : jsstring) : forall (s cur : jsstring),
  JsString.includes s sep = false ->
  JsString.splitFrom sep O cur s = [cur ++ s].
Proof.
  induction s as [|c r IH]; intros cur H; [now rewrite app_nil_r|].
  apply includes_cons in H as [Hstart Hrest].
  cbn [JsString.splitFrom]. rewrite Hstart, IH by exact Hrest.
  now rewrite <- app_assoc.
Qed.

Lemma parseInlineElementes_merged (str : jsstring) (parsed : list DescriptionInlineElement) :
  parseInlineElementes str = Ok parsed -> merged parsed = true.
Proof.
  unfold parseInlineElementes. intros H.
  destruct (scan _ _ str) as [st|e] eqn:Hscan; [|discriminate]. cbn [bind] in H.
  destruct (commandType st) eqn:Hty; [discriminate|].
  destruct (pushTextSpan st) as [st'|e] eqn:Hpush; [|discriminate].
  cbn [bind] in H. injection H as <-.
  apply scan_merged in Hscan as [Hm Hend]; [|reflexivity|reflexivity].
  now apply (pushTextSpan_merged _ _ Hpush Hm (Hend Hty)).
Qed.

Lemma pushParagraphElements_closed st :
  paragraphElements st = None -> pushParagraphElements st = Ok st.
Proof. unfold pushParagraphElements. now intros ->. Qed.

Lemma pushListItems_closed st : listItems st = None -> pushListItems st = Ok st.
Proof. unfold pushListItems. now intros ->. Qed.

(** A chunk of one line. *)
Lemma parseBlock_single_line (blocks0 : list DescriptionBlockElement) (line : jsstring) :
  ~ In LF line ->
  parseBlock blocks0 line =
    if JsString.startsWith line (js "* ") then
      parsed <- parseInlineElementes (JsString.substring line 2) ;;
      Ok (blocks0 ++ [List [parsed]])
    else
      parsed <- parseInlineElementes line ;;
      Ok (blocks0 ++ [Paragraph parsed]).
Proof.
  intros Hline. unfold parseBlock, JsString.split.
  rewrite splitFrom_whole by (apply (includes_In _ _ LF); [now left | exact Hline]).
  cbn [app forEach]. unfold parseLine. cbn [listItems paragraphElements blocks].
  destruct (JsString.startsWith line (js "* ")).
  - rewrite pushParagraphElements_closed by reflexivity.
    cbn [bind listItems paragraphElements blocks].
    destruct (parseInlineElementes _) as [parsed|e] eqn:Hparse; [|reflexivity].
    cbn [bind]. rewrite (pushToLastItem_app [] [] parsed). cbn [bind app].
    unfold pushParagraphElements, pushListItems. cbn [bind listItems paragraphElements blocks].
    unfold mapOptimize.
    rewrite (optimizeElements_fixed _ (parseInlineElementes_merged _ _ Hparse)).
    reflexivity.
  - unfold paragraphLine.
    rewrite pushListItems_closed by reflexivity.
    cbn [bind listItems paragraphElements blocks List.length Nat.ltb Nat.leb andb].
    destruct (parseInlineElementes line) as [parsed|e] eqn:Hparse; [|reflexivity].
    cbn [bind app].
    unfold pushParagraphElements, pushListItems. cbn [bind listItems paragraphElements blocks].
    rewrite (optimizeElements_fixed _ (parseInlineElementes_merged _ _ Hparse)).
    reflexivity.
Qed.

(** X17: a description that is one line once trimmed parses to one block
    that holds what the inline parser returns, untouched by the optimizer: a
    list of one item when the line begins with an asterisk and a space, the
    item being the parse of the rest, and else a paragraph; it fails as the
    inline parser fails. *)
Theorem parseDescription_single_line (str : jsstring) :
  ~ In LF (JsString.trim str) ->
  parseDescription str =
    if JsString.startsWith (JsString.trim str) (js "* ") then
      parsed <- parseInlineElementes (JsString.substring (JsString.trim str) 2) ;;
      Ok (Description.Build [List [parsed]])
    else
      parsed <- parseInlineElementes (JsString.trim str) ;;
      Ok (Description.Build [Paragraph parsed]).
Proof.
  intros Hline. unfold parseDescription, JsString.replace.
  rewrite replaceFrom_three_line_breaks
    by (apply (includes_In _ _ LF); [now left | exact Hline]).
  unfold JsString.split.
  rewrite splitFrom_whole by (apply (includes_In _ _ LF); [now left | exact Hline]).
  cbn [app forEach]. rewrite parseBlock_single_line by exact Hline.
  destruct (JsString.startsWith _ _); destruct (parseInlineElementes _); reflexivity.
Qed.

Lemma parseDescription_single_line_witness :
  parseDescription (js "  * see {c x}\n")
  = Ok (Description.Build
          [List [[Text (TextSpan.Build (js "see "));
                  Command (CommandSpan.Build CommandSpan.CODE (TextSpan.Build (js "x")))]]]).
Proof.
  rewrite (parseDescription_single_line (js "  * see {c x}\n"))
    by (simpl; intuition discriminate).
  reflexivity.
Defined.
